(** * MIRACLReranking: the reranking evaluator

    A shallow embedding of [MIRACLRerankingEvaluator]
    (mteb/tasks/Reranking/multilingual/MIRACLReranking.py): the rerank
    scorer, the batched and the individual metric computations, and the
    properties the specification states about them.

    Python dictionaries are [gmap]s keyed by strings, [str(i)] is stdpp's
    [pretty], raised exceptions are the [Raise] branch of [result].  Scores
    are kept abstract: a type [score] with the binary maximum [smax] that
    [torch.amax] folds over a column. *)

From stdpp Require Import gmap strings list fin_maps pretty.


(** ** Exceptions and results *)

Inductive exn :=
| ValueError (msg : string)
| IndexError
| UnboundLocalError
| AttributeError
| TypeError
| RuntimeError.

Inductive result (A : Type) :=
| Ok (a : A)
| Raise (e : exn).
Arguments Ok {A} a.
Arguments Raise {A} e.

Definition rbind {A B} (r : result A) (k : A → result B) : result B :=
  match r with
  | Ok a => k a
  | Raise e => Raise e
  end.

Notation "x ←! r ; k" := (rbind r (λ x, k))
  (at level 20, r at level 100, k at level 200, right associativity,
   format "x  ←!  r ;  '/' k").
Notation "' p ←! r ; k" := (rbind r (λ x, match x with p => k end))
  (at level 20, p pattern, r at level 100, k at level 200,
   right associativity).

(** The specification's [InvalidInput] is Python's [ValueError]. *)
Definition InvalidInput (e : exn) : Prop := ∃ msg, e = ValueError msg.

(** A [for] loop whose body may raise: left fold in the error monad. *)
Fixpoint foldlM {A B} (f : A → B → result A) (a : A) (l : list B) : result A :=
  match l with
  | [] => Ok a
  | x :: l' => a' ←! f a x; foldlM f a' l'
  end.

(** ** Python values a sample's [query] field may hold *)

Inductive pyval :=
| PStr (s : string)
| PList (l : list string)
| POther (ty : string).   (* neither [str] nor [list]; [ty] is [type(v)] printed *)

Record sample := {
  query : pyval;
  positive : list string;
  candidates : list string;
}.

(** ** Tensors returned by the similarity function: shape [C] or [R, C] *)

Inductive tensor (score : Type) :=
| T1 (v : list score)
| T2 (rows : list (list score)).
Arguments T1 {score} v.
Arguments T2 {score} rows.

(** [enumerate(l)] *)
Definition enumerate {A} (l : list A) : list (nat * A) := imap pair l.

(** [{str(i): f(i, x) for i, x in enumerate(l)}]: entries are inserted in
    order, a later one overwriting an earlier one with the same key. *)
Definition dict_comp {A V} (f : nat → A → V) (l : list A) : gmap string V :=
  foldl (λ m ix, <[pretty ix.1 := f ix.1 ix.2]> m) ∅ (enumerate l).

(** [l[a:b]] on a sequence: out-of-range bounds are clamped. *)
Definition slice {A} (l : list A) (a b : nat) : list A := take (b - a) (drop a l).

(** [{**a, **b}]: the entries of [b] win. *)
Definition dict_merge {V} (a b : gmap string V) : gmap string V := b ∪ a.

Section Evaluator.

Context {emb score : Type}.

(** The binary maximum of two scores, as [torch.amax] uses it. *)
Variable smax : score → score → score.

(** An encode function: [encode(texts, batch_size=...)], one row per text. *)
Definition encode_fn := list pyval → nat → list emb.

Record model := {
  encode : encode_fn;
  encode_queries : option encode_fn;           (* [None]: attribute absent *)
  encode_corpus : option encode_fn;
  is_EncoderWithQueryCorpusEncode : bool;      (* [isinstance(model, ...)] *)
}.

(** The evaluator object after construction. *)
Record evaluator := {
  samples : list sample;
  mrr_at_k : nat;
  name : string;
  similarity_fct : list emb → list emb → tensor score;
  batch_size : nat;
  use_batched_encoding : bool;
  limit : option nat;
  k_values : list nat;
}.

(** [torch.amax(pred_scores, dim=0)] on an [R, C] tensor; reducing over an
    empty dimension raises. *)
Definition amax_dim0 (rows : list (list score)) : result (list score) :=
  match rows with
  | [] => Raise RuntimeError
  | r :: rest => Ok (foldl (zip_with smax) r rest)
  end.

(** [MIRACLRerankingEvaluator.rerank] *)
Definition rerank (self : evaluator) (query_emb docs_emb : list emb)
  : result (gmap string score) :=
  match length query_emb with
  | 0 => Raise (ValueError "Empty query embedding")
  | _ =>
    match length docs_emb with
    | 0 => Ok ∅
    | _ =>
      pred_scores ←! match similarity_fct self query_emb docs_emb with
                     | T2 rows => amax_dim0 rows
                     | T1 v => Ok v
                     end;
      Ok (dict_comp (λ _ s, s) pred_scores)
    end
  end.

(** The relevance judgments of one sample:
    [{str(i): 1 if doc in positive else 0 for i, doc in enumerate(docs)}];
    [mem] is the membership test [doc in positive]. *)
Definition judgments (mem : string → bool) (docs : list string)
  : gmap string nat :=
  dict_comp (λ _ doc, if mem doc then 1 else 0) docs.

(** [RetrievalEvaluator.evaluate(qrels=..., results=..., k_values=...)],
    imported from [mteb.evaluation.evaluators]: returns the four metric
    groups [(ndcg, _map, recall, precision)], or raises. *)
Variable evaluate :
  gmap string (gmap string nat) → gmap string (gmap string score) → list nat →
  result (gmap string score * gmap string score *
          gmap string score * gmap string score).

(** The tail shared by both strategies: call the engine once and merge
    [{**ndcg, **_map, **recall, **precision}]. *)
Definition evaluate_and_merge (self : evaluator)
    (results : gmap string (gmap string score))
    (qrels : gmap string (gmap string nat)) : result (gmap string score) :=
  '(ndcg, _map, recall, precision) ←! evaluate qrels results (k_values self);
  Ok (dict_merge (dict_merge (dict_merge ndcg _map) recall) precision).

(** *** Batched strategy *)

(** [model.encode_queries if isinstance(model, EncoderWithQueryCorpusEncode)
    else model.encode]; reading a missing attribute raises. *)
Definition getattr_or_raise (f : option encode_fn) : result encode_fn :=
  match f with
  | Some g => Ok g
  | None => Raise AttributeError
  end.

Definition batched_encode_queries_func (m : model) : result encode_fn :=
  if is_EncoderWithQueryCorpusEncode m then getattr_or_raise (encode_queries m)
  else Ok (encode m).

Definition batched_encode_corpus_func (m : model) : result encode_fn :=
  if is_EncoderWithQueryCorpusEncode m then getattr_or_raise (encode_corpus m)
  else Ok (encode m).

(** [for q in sample["query"]]: a list yields its elements, a string its
    characters, anything else is taken not to be iterable. *)
Definition iter_query (q : pyval) : result (list string) :=
  match q with
  | PList l => Ok l
  | PStr s => Ok ((λ c, String c EmptyString) <$> String.list_ascii_of_string s)
  | POther _ => Raise TypeError
  end.

(** [[q for sample in self.samples for q in sample["query"]]] *)
Fixpoint all_query_flattened (ss : list sample) : result (list string) :=
  match ss with
  | [] => Ok []
  | s :: ss' =>
    qs ←! iter_query (query s);
    rest ←! all_query_flattened ss';
    Ok (qs ++ rest)
  end.

(** The texts sent to the query encoder, chosen by the type of
    [self.samples[0]["query"]]. *)
Definition batched_query_texts (self : evaluator) : result (list pyval) :=
  match samples self with
  | [] => Raise IndexError
  | s0 :: _ =>
    match query s0 with
    | PStr _ => Ok (query <$> samples self)
    | PList _ => qs ←! all_query_flattened (samples self); Ok (PStr <$> qs)
    | POther ty =>
      Raise (ValueError
               ("Query must be a string or a list of strings but is " +:+ ty))
    end
  end.

(** [all_docs.extend(sample["candidates"])] over all samples. *)
Definition all_docs (self : evaluator) : list string :=
  concat (candidates <$> samples self).

(** The state of the scoring loop: [(query_idx, docs_idx, results, qrels)]. *)
Record batched_state := {
  query_idx : nat;
  docs_idx : nat;
  b_results : gmap string (gmap string score);
  b_qrels : gmap string (gmap string nat);
}.

Definition num_subqueries (instance : sample) : nat :=
  match query instance with
  | PList l => length l
  | _ => 1
  end.

(** One iteration of [for instance in self.samples]. *)
Definition batched_step (self : evaluator)
    (all_query_embs all_docs_embs : list emb)
    (st : batched_state) (instance : sample) : result batched_state :=
  let n := num_subqueries instance in
  let query_emb := slice all_query_embs (query_idx st) (query_idx st + n) in
  let query_idx' := query_idx st + n in
  let positive := positive instance in
  let docs := candidates instance in
  let num_doc := length docs in
  let docs_emb := slice all_docs_embs (docs_idx st) (docs_idx st + num_doc) in
  let docs_idx' := docs_idx st + num_doc in
  let fake_qid := pretty query_idx' in
  scores ←! rerank self query_emb docs_emb;
  Ok {| query_idx := query_idx';
        docs_idx := docs_idx';
        b_results := <[fake_qid := scores]> (b_results st);
        b_qrels :=
          <[fake_qid := judgments (λ doc, bool_decide (doc ∈ positive)) docs]>
            (b_qrels st) |}.

Definition batched_init : batched_state :=
  {| query_idx := 0; docs_idx := 0; b_results := ∅; b_qrels := ∅ |}.

(** Encoding and the scoring loop of [compute_metrics_batched], up to the
    Results and Qrels collections. *)
Definition batched_collections (self : evaluator) (m : model)
  : result batched_state :=
  encode_queries_func ←! batched_encode_queries_func m;
  encode_corpus_func ←! batched_encode_corpus_func m;
  texts ←! batched_query_texts self;
  let all_query_embs := encode_queries_func texts (batch_size self) in
  let all_docs_embs :=
    encode_corpus_func (PStr <$> all_docs self) (batch_size self) in
  foldlM (batched_step self all_query_embs all_docs_embs)
         batched_init (samples self).

(** [MIRACLRerankingEvaluator.compute_metrics_batched] *)
Definition compute_metrics_batched (self : evaluator) (m : model)
  : result (gmap string score) :=
  st ←! batched_collections self m;
  evaluate_and_merge self (b_results st) (b_qrels st).

(** *** Individual strategy *)

(** [model.encode_queries if hasattr(model, "encode_queries")
    else model.encode] *)
Definition individual_encode_queries_func (m : model) : encode_fn :=
  match encode_queries m with
  | Some f => f
  | None => encode m
  end.

Definition individual_encode_corpus_func (m : model) : encode_fn :=
  match encode_corpus m with
  | Some f => f
  | None => encode m
  end.

(** The loop keeps [results], [qrels] and the local variables [query_emb]
    and [docs_emb]; these two are unbound ([None]) until an iteration with a
    string query assigns them, and keep their value afterwards. *)
Record individual_state := {
  i_results : gmap string (gmap string score);
  i_qrels : gmap string (gmap string nat);
  i_locals : option (list emb * list emb);
}.

(** One iteration of [for i, instance in enumerate(self.samples)]. *)
Definition individual_step (self : evaluator) (m : model)
    (st : individual_state) (ix : nat * sample) : result individual_state :=
  let i := ix.1 in
  let instance := ix.2 in
  let query := query instance in
  let positive : gset string := list_to_set (positive instance) in
  let docs := candidates instance in
  let locals :=
    match query with
    | PStr _ =>
      Some (individual_encode_queries_func m [query] (batch_size self),
            individual_encode_corpus_func m (PStr <$> docs) (batch_size self))
    | _ => i_locals st
    end in
  let fake_qid := pretty i in
  match locals with
  | None => Raise UnboundLocalError
  | Some (query_emb, docs_emb) =>
    scores ←! rerank self query_emb docs_emb;
    Ok {| i_results := <[fake_qid := scores]> (i_results st);
          i_qrels :=
            <[fake_qid := judgments (λ doc, bool_decide (doc ∈ positive)) docs]>
              (i_qrels st);
          i_locals := locals |}
  end.

Definition individual_init : individual_state :=
  {| i_results := ∅; i_qrels := ∅; i_locals := None |}.

Definition individual_collections (self : evaluator) (m : model)
  : result individual_state :=
  foldlM (individual_step self m) individual_init (enumerate (samples self)).

(** [MIRACLRerankingEvaluator.compute_metrics_individual] *)
Definition compute_metrics_individual (self : evaluator) (m : model)
  : result (gmap string score) :=
  st ←! individual_collections self m;
  evaluate_and_merge self (i_results st) (i_qrels st).

End Evaluator.

(** ** The evaluator entry point *)

(** Modelled from the spec: the entry point that runs an evaluator on a
    model ([__call__] and [compute_metrics], inherited from
    [RerankingEvaluator] in [mteb.evaluation.evaluators], outside
    MIRACLReranking.py).
    Section 4.4: it validates that the sample set is non-empty, failing with
    [InvalidInput] otherwise, and only then dispatches to the batched or the
    individual strategy according to the configuration. *)
Definition Evaluator_entry {emb score : Type}
    (batched individual :
       @evaluator emb score → @model emb → result (gmap string score))
    (self : @evaluator emb score) (m : @model emb)
  : result (gmap string score) :=
  match samples self with
  | [] => Raise (ValueError "Empty sample set")
  | _ =>
    if use_batched_encoding self then batched self m else individual self m
  end.

(** The entry point over the two strategies of this evaluator. *)
Definition MIRACLRerankingEvaluator_call {emb score : Type}
    (smax : score → score → score)
    (evaluate :
       gmap string (gmap string nat) → gmap string (gmap string score) →
       list nat →
       result (gmap string score * gmap string score *
               gmap string score * gmap string score))
  : @evaluator emb score → @model emb → result (gmap string score) :=
  Evaluator_entry (compute_metrics_batched smax evaluate)
                  (compute_metrics_individual smax evaluate).

(** ** Notions the properties are stated with *)

Section Notions.

Context {emb score : Type}.

(** What the scorer needs of scores: [sle] is an order for which [smax]
    returns the larger of its two arguments. *)
Record max_order (sle : score → score → Prop)
    (smax : score → score → score) : Prop := {
  smax_ub_l : ∀ a b, sle a (smax a b);
  smax_ub_r : ∀ a b, sle b (smax a b);
  smax_choice : ∀ a b, smax a b = a ∨ smax a b = b;
  sle_trans : ∀ a b c, sle a b → sle b c → sle a c;
}.

(** [v] is the maximum of the values in [l]. *)
Definition is_max_of (sle : score → score → Prop) (v : score)
    (l : list score) : Prop :=
  v ∈ l ∧ ∀ x, x ∈ l → sle x v.

(** The matrix of pairwise similarities, one row per query variant. *)
Definition sim_matrix (sim : emb → emb → score) (qs ds : list emb)
  : list (list score) :=
  (λ q, sim q <$> ds) <$> qs.

(** The interface of a similarity function (section 6): it returns the
    [R, C] matrix of the pairwise similarities [sim], or, for a single query
    row, possibly the degenerate vector of shape [C]. *)
Definition pairwise_similarity (sim : emb → emb → score)
    (F : list emb → list emb → tensor score) : Prop :=
  ∀ qs ds,
    F qs ds = T2 (sim_matrix sim qs ds) ∨
    (∃ q, qs = [q] ∧ F qs ds = T1 (sim q <$> ds)).

(** The score the scorer computes for one candidate: [smax] folded over its
    similarities to the query rows, first row first. *)
Definition best_score (smax : score → score → score)
    (sim : emb → emb → score) (q0 : emb) (qs : list emb)
    (d : emb) : score :=
  foldl smax (sim q0 d) ((λ q, sim q d) <$> qs).

(** The keys ["0"] .. ["n-1"]. *)
Definition index_keys (n : nat) : gset string :=
  list_to_set (pretty <$> seq 0 n).

End Notions.

(** ** The two loops with the dictionaries factored out *)

(** Inserting a sequence of entries into a dictionary, in order. *)
Definition insert_all {V} (m : gmap string V) (kvs : list (string * V))
  : gmap string V :=
  foldl (λ m kv, <[kv.1 := kv.2]> m) m kvs.

(** The dictionary holding [vs], the i-th value under the i-th identifier. *)
Definition keyed {V} (ids : list string) (vs : list V) : gmap string V :=
  list_to_map (zip ids vs).

(** The running query offset after each sample, starting from [qi]: the
    numbers the batched loop prints as identifiers. *)
Fixpoint fake_qids (qi : nat) (ss : list sample) : list nat :=
  match ss with
  | [] => []
  | s :: ss' => (qi + num_subqueries s) :: fake_qids (qi + num_subqueries s) ss'
  end.

Definition query_offset (ss : list sample) : nat :=
  sum_list (num_subqueries <$> ss).

Definition doc_offset (ss : list sample) : nat :=
  sum_list ((λ s, length (candidates s)) <$> ss).

(** The membership tests of the two strategies: [positive] is the field as
    stored in the batched strategy and [set(positive)] in the individual. *)
Definition batched_judgments (s : sample) : gmap string nat :=
  judgments (λ doc, bool_decide (doc ∈ positive s)) (candidates s).

Definition individual_judgments (s : sample) : gmap string nat :=
  judgments
    (λ doc, bool_decide (doc ∈ (list_to_set (positive s) : gset string)))
    (candidates s).

Section Loops.

Context {emb score : Type}.
Variable smax : score → score → score.

(** The Score Maps the batched loop computes, sample by sample, from the
    offsets [qi] and [di] on. *)
Fixpoint batched_scores (self : @evaluator emb score) (qe de : list emb)
    (qi di : nat) (ss : list sample) : result (list (gmap string score)) :=
  match ss with
  | [] => Ok []
  | s :: ss' =>
    let n := num_subqueries s in
    let c := length (candidates s) in
    scores ←! rerank smax self (slice qe qi (qi + n)) (slice de di (di + c));
    rest ←! batched_scores self qe de (qi + n) (di + c) ss';
    Ok (scores :: rest)
  end.

(** The local variables [query_emb], [docs_emb] of the individual loop after
    the iteration on [s]. *)
Definition individual_locals (self : @evaluator emb score) (m : @model emb)
    (locals : option (list emb * list emb)) (s : sample)
  : option (list emb * list emb) :=
  match query s with
  | PStr _ =>
    Some (individual_encode_queries_func m [query s] (batch_size self),
          individual_encode_corpus_func m (PStr <$> candidates s)
                                        (batch_size self))
  | _ => locals
  end.

(** The Score Maps the individual loop computes, and its local variables at
    the end. *)
Fixpoint individual_scores (self : @evaluator emb score) (m : @model emb)
    (locals : option (list emb * list emb)) (ss : list sample)
  : result (list (gmap string score) * option (list emb * list emb)) :=
  match ss with
  | [] => Ok ([], locals)
  | s :: ss' =>
    match individual_locals self m locals s with
    | None => Raise UnboundLocalError
    | Some (query_emb, docs_emb) =>
      scores ←! rerank smax self query_emb docs_emb;
      rest ←! individual_scores self m (Some (query_emb, docs_emb)) ss';
      Ok (scores :: rest.1, rest.2)
    end
  end.

(** An encode function that embeds every text on its own, whatever the
    batch it arrives in. *)
Definition pointwise (f : @encode_fn emb) (e : pyval → emb) : Prop :=
  ∀ texts bs, f texts bs = e <$> texts.

(** Both strategies reach the same deterministic encoder: the query function
    each of them selects embeds a text as [enc_q] does, the corpus function
    as [enc_c]. *)
Definition same_deterministic_encoder (m : @model emb)
    (enc_q enc_c : pyval → emb) : Prop :=
  (∃ fq, batched_encode_queries_func m = Ok fq ∧ pointwise fq enc_q) ∧
  (∃ fc, batched_encode_corpus_func m = Ok fc ∧ pointwise fc enc_c) ∧
  pointwise (individual_encode_queries_func m) enc_q ∧
  pointwise (individual_encode_corpus_func m) enc_c.

(** A relevance-metrics engine that does not look at the identifiers: its
    output depends on the per-query (Score Map, Judgment Map) pairs only,
    not on the distinct names they are stored under. *)
Definition identifier_blind
    (evaluate :
       gmap string (gmap string nat) → gmap string (gmap string score) →
       list nat →
       result (gmap string score * gmap string score *
               gmap string score * gmap string score)) : Prop :=
  ∀ (ids1 ids2 : list string)
    (entries : list (gmap string score * gmap string nat)) (ks : list nat),
    NoDup ids1 → NoDup ids2 →
    length ids1 = length entries → length ids2 = length entries →
    evaluate (keyed ids1 entries.*2) (keyed ids1 entries.*1) ks
    = evaluate (keyed ids2 entries.*2) (keyed ids2 entries.*1) ks.

(** Every query of the sample set is a single string. *)
Definition all_single_string (ss : list sample) : Prop :=
  Forall (λ s, ∃ t, query s = PStr t) ss.

(** What the Relevance Judgment Map of a sample has to be: one entry per
    candidate index, 1 if the candidate text is in [positive], else 0. *)
Definition judgment_map_of (s : sample) (J : gmap string nat) : Prop :=
  dom J = index_keys (length (candidates s)) ∧
  ∀ i doc, candidates s !! i = Some doc →
    J !! pretty i = Some (if bool_decide (doc ∈ positive s) then 1 else 0).

End Loops.

(** ** A concrete instance: integer embeddings and scores

    Texts are embedded by their length, two embeddings are the more similar
    the closer they are, and the engine reports, at every cutoff, how many
    relevant candidates the run has scored. *)
Module Example.

Definition embed (v : pyval) : Z :=
  match v with
  | PStr s => Z.of_nat (String.length s)
  | PList l => Z.of_nat (length l)
  | POther _ => 0
  end.

Definition encode_texts : @encode_fn Z := λ texts _, embed <$> texts.

Definition generic_model : @model Z :=
  {| encode := encode_texts;
     encode_queries := None;
     encode_corpus := None;
     is_EncoderWithQueryCorpusEncode := false |}.

Definition closeness (q d : Z) : Z := (- Z.abs (q - d))%Z.

(** The similarity function, returning the full [R, C] matrix. *)
Definition similarity (qs ds : list Z) : tensor Z :=
  T2 ((λ q, closeness q <$> ds) <$> qs).

(** The number of candidates of one query that are both scored and judged
    relevant. *)
Definition relevant_scored (e : gmap string Z * gmap string nat) : Z :=
  Z.of_nat (size (filter (λ kv, kv.2 = 1 ∧ is_Some (e.1 !! kv.1)) e.2)).

Definition total_relevant_scored
    (qrels : gmap string (gmap string nat))
    (results : gmap string (gmap string Z)) : Z :=
  map_fold (λ _ e acc, (acc + relevant_scored e)%Z) 0%Z (map_zip results qrels).

Definition at_cutoffs (prefix : string) (v : Z) (ks : list nat) : gmap string Z :=
  list_to_map ((λ k, (prefix +:+ pretty k, v)) <$> ks).

Definition engine (qrels : gmap string (gmap string nat))
    (results : gmap string (gmap string Z)) (ks : list nat)
  : result (gmap string Z * gmap string Z * gmap string Z * gmap string Z) :=
  let v := total_relevant_scored qrels results in
  Ok (at_cutoffs "NDCG@" v ks, at_cutoffs "MAP@" v ks,
      at_cutoffs "Recall@" v ks, at_cutoffs "P@" v ks).

Definition make_evaluator (ss : list sample) (batched : bool) : @evaluator Z Z :=
  {| samples := ss;
     mrr_at_k := 10;
     name := "";
     similarity_fct := similarity;
     batch_size := 512;
     use_batched_encoding := batched;
     limit := None;
     k_values := [1; 3; 5; 10; 20; 100; 1000] |}.

Definition cat_sample : sample :=
  {| query := PStr "cat";
     positive := ["cat food"];
     candidates := ["cat food"; "dog toy"] |}.

Definition abc_sample : sample :=
  {| query := PStr "b";
     positive := ["b"];
     candidates := ["a"; "b"; "c"] |}.

Definition variants_sample : sample :=
  {| query := PList ["cat"; "feline"];
     positive := ["kitten"];
     candidates := ["kitten"] |}.

Definition paws_sample : sample :=
  {| query := PList ["dog"; "hound"; "puppy"];
     positive := ["dog toy"];
     candidates := ["cat food"; "dog toy"] |}.

(** Four evaluators: no sample; two string queries; two variant lists; a
    string query followed by a variant list. *)
Definition empty_run : @evaluator Z Z := make_evaluator [] true.

Definition strings_run : @evaluator Z Z :=
  make_evaluator [cat_sample; abc_sample] true.

Definition variants_run : @evaluator Z Z :=
  make_evaluator [variants_sample; paws_sample] true.

Definition mixed_run : @evaluator Z Z :=
  make_evaluator [cat_sample; variants_sample] false.

End Example.

(** ** Samples scored from their own embeddings *)

(** [[f(x) for x in l]] where [f] may raise. *)
Fixpoint mapM {A B} (f : A → result B) (l : list A) : result (list B) :=
  match l with
  | [] => Ok []
  | x :: l' => y ←! f x; ys ←! mapM f l'; Ok (y :: ys)
  end.

(** The texts a sample contributes to the query encoder when the whole set
    has queries of one kind: the string itself, or the variants of the list. *)
Definition query_texts (s : sample) : list pyval :=
  match query s with
  | PStr _ => [query s]
  | PList l => PStr <$> l
  | POther _ => []
  end.

(** Every query of the sample set is a list of variants. *)
Definition all_variant_lists (ss : list sample) : Prop :=
  Forall (λ s, ∃ l, query s = PList l) ss.

Section OwnScores.

Context {emb score : Type}.
Variable smax : score → score → score.

(** The Score Map of a sample computed from the embeddings of its own query
    texts and its own candidates. *)
Definition own_scores (self : @evaluator emb score)
    (enc_q enc_c : pyval → emb) (s : sample) : result (gmap string score) :=
  rerank smax self (enc_q <$> query_texts s)
                   (enc_c <$> (PStr <$> candidates s)).

(** The local variables [query_emb], [docs_emb] of the individual loop after
    the samples [pre], starting from [locals]. *)
Definition locals_after (self : @evaluator emb score) (m : @model emb)
    (locals : option (list emb * list emb)) (pre : list sample)
  : option (list emb * list emb) :=
  foldl (individual_locals self m) locals pre.

(** The encode functions the batched strategy selects embed every text on
    its own: queries as [enc_q], candidates as [enc_c]. *)
Definition batched_pointwise_encoder (m : @model emb)
    (enc_q enc_c : pyval → emb) : Prop :=
  (∃ fq, batched_encode_queries_func m = Ok fq ∧ pointwise fq enc_q) ∧
  (∃ fc, batched_encode_corpus_func m = Ok fc ∧ pointwise fc enc_c).

End OwnScores.

(** All queries are strings, or all are lists of variants. *)
Definition uniform_queries (ss : list sample) : Prop :=
  all_single_string ss ∨ all_variant_lists ss.

(** ** The task driver: [MIRACLReranking.evaluate] *)

(** What the driver can raise: a missing key of [self.dataset], or whatever
    [load_data] or an evaluator raised. *)
Inductive driver_exn :=
| KeyError (key : string)
| Raised (e : exn).

Inductive outcome (A : Type) :=
| Done (a : A)
| Failed (e : driver_exn).
Arguments Done {A} a.
Arguments Failed {A} e.

(** [self.dataset] with the flag that fixes its shape: for a multilingual
    task a dictionary from language to splits, walked over [self.langs];
    otherwise a dictionary of splits. *)
Inductive task_data :=
| Multilingual (langs : list string)
               (dataset : gmap string (gmap string (list sample)))
| Monolingual (dataset : gmap string (list sample)).

Record task := {
  data_loaded : bool;
  data : task_data;
}.

Definition is_multilingual (self : task) : bool :=
  match data self with
  | Multilingual _ _ => true
  | Monolingual _ => false
  end.

Section Driver.

Context {emb score : Type}.

(** [self.load_data()], inherited: returns the task with its data loaded, or
    raises. *)
Variable load_data : task → result task.

(** [MIRACLRerankingEvaluator(data_split, **kwargs)(model)]: construction and
    call of an evaluator, both inherited. *)
Variable run : list sample → @model emb → result (gmap string score).

(** What the driver returns: per-language metrics, or the metrics of the one
    evaluation. *)
Inductive scores :=
| PerLanguage (s : gmap string (gmap string score))
| Single (s : gmap string score).

(** [evaluator(model)] on [self.dataset[lang][split]]. *)
Definition language_scores
    (dataset : gmap string (gmap string (list sample)))
    (split : string) (m : @model emb) (lang : string)
  : outcome (gmap string score) :=
  match dataset !! lang with
  | None => Failed (KeyError lang)
  | Some splits =>
    match splits !! split with
    | None => Failed (KeyError split)
    | Some data_split =>
      match run data_split m with
      | Ok r => Done r
      | Raise e => Failed (Raised e)
      end
    end
  end.

(** [for lang in self.langs: ... scores[lang] = evaluator(model)] *)
Fixpoint for_languages
    (dataset : gmap string (gmap string (list sample)))
    (split : string) (m : @model emb)
    (acc : gmap string (gmap string score)) (langs : list string)
  : outcome (gmap string (gmap string score)) :=
  match langs with
  | [] => Done acc
  | lang :: langs' =>
    match language_scores dataset split m lang with
    | Done r => for_languages dataset split m (<[lang := r]> acc) langs'
    | Failed e => Failed e
    end
  end.

(** The body of [evaluate] once the data is there. *)
Definition evaluate_loaded (self : task) (m : @model emb) (split : string)
  : outcome scores :=
  match data self with
  | Multilingual langs dataset =>
    match for_languages dataset split m ∅ langs with
    | Done s => Done (PerLanguage s)
    | Failed e => Failed e
    end
  | Monolingual dataset =>
    match dataset !! split with
    | None => Failed (KeyError split)
    | Some data_split =>
      match run data_split m with
      | Ok r => Done (Single r)
      | Raise e => Failed (Raised e)
      end
    end
  end.

(** [MIRACLReranking.evaluate(model, split)]: the task afterwards and the
    scores returned or the exception raised. *)
Definition evaluate_task (self : task) (m : @model emb) (split : string)
  : task * outcome scores :=
  if data_loaded self then (self, evaluate_loaded self m split)
  else
    match load_data self with
    | Raise e => (self, Failed (Raised e))
    | Ok self' => (self', evaluate_loaded self' m split)
    end.

(** [split] defaults to ["test"]. *)
Definition evaluate_task_default (self : task) (m : @model emb)
  : task * outcome scores :=
  evaluate_task self m "test".

End Driver.

(** A concrete two-language task over the evaluators of the instance. *)
Module DriverExample.

Definition run (ss : list sample) (m : @model Z) : result (gmap string Z) :=
  compute_metrics_batched Z.max Example.engine
    (Example.make_evaluator ss true) m.

Definition english : gmap string (list sample) :=
  {[ "dev" := [Example.cat_sample; Example.abc_sample] ]}.

Definition french : gmap string (list sample) :=
  {[ "dev" := [Example.abc_sample] ]}.

Definition two_languages : task :=
  {| data_loaded := true;
     data := Multilingual ["en"; "fr"] {[ "en" := english; "fr" := french ]} |}.

Definition not_loaded : task :=
  {| data_loaded := false; data := Multilingual [] ∅ |}.

Definition load (t : task) : result task := Ok two_languages.

Definition failing_load (t : task) : result task := Raise RuntimeError.

(** The same dataset, with a language the dataset does not have listed
    between the two it has. *)
Definition missing_language : task :=
  {| data_loaded := true;
     data := Multilingual ["en"; "de"; "fr"]
                          {[ "en" := english; "fr" := french ]} |}.

End DriverExample.

(** Further samples and evaluators of the integer instance. *)
Module MoreExamples.

Definition none_sample : sample :=
  {| query := POther "<class 'NoneType'>";
     positive := ["cat food"];
     candidates := ["cat food"] |}.

Definition no_variants_sample : sample :=
  {| query := PList [];
     positive := ["cat food"];
     candidates := ["cat food"; "dog toy"] |}.

Definition unsupported_run : @evaluator Z Z :=
  Example.make_evaluator [none_sample; Example.cat_sample] true.

Definition no_variants_run : @evaluator Z Z :=
  Example.make_evaluator [Example.variants_sample; no_variants_sample] true.

Definition list_first_run : @evaluator Z Z :=
  Example.make_evaluator [Example.variants_sample; Example.cat_sample] false.

(** An evaluator whose similarity function returns three scores whatever it
    is given. *)
Definition three_scores_run : @evaluator Z Z :=
  {| samples := [];
     mrr_at_k := 10;
     name := "";
     similarity_fct := λ _ _, T1 [1%Z; 2%Z; 3%Z];
     batch_size := 512;
     use_batched_encoding := true;
     limit := None;
     k_values := [1; 3; 5; 10; 20; 100; 1000] |}.

(** A query-specific encode function that prepends a seven-character
    instruction to every text before embedding it. *)
Definition instructed_encode : @encode_fn Z :=
  λ texts _, (λ v, (Example.embed v + 7)%Z) <$> texts.

(** A model that offers [encode] and [encode_queries] but no
    [encode_corpus], and so is not an [EncoderWithQueryCorpusEncode]. *)
Definition queries_only_model : @model Z :=
  {| encode := Example.encode_texts;
     encode_queries := Some instructed_encode;
     encode_corpus := None;
     is_EncoderWithQueryCorpusEncode := false |}.

End MoreExamples.

(** ** The Qrels of a completed run, and the runs in closed form *)

Section QrelsNotions.

Context {emb score : Type}.
Variable smax : score → score → score.

(** The batched Qrels hold, under the identifier of every sample, a
    judgment map of that sample. *)
Definition batched_qrels_correct (self : @evaluator emb score)
    (st : @batched_state score) : Prop :=
  ∀ k s id, samples self !! k = Some s →
    fake_qids 0 (samples self) !! k = Some id →
    ∃ J, b_qrels st !! pretty id = Some J ∧ judgment_map_of s J.

(** The individual Qrels hold, under the position of every sample, a
    judgment map of that sample. *)
Definition individual_qrels_correct (self : @evaluator emb score)
    (st : @individual_state emb score) : Prop :=
  ∀ k s, samples self !! k = Some s →
    ∃ J, i_qrels st !! pretty k = Some J ∧ judgment_map_of s J.

(** The batched strategy up to its collections: only selecting the encode
    functions, choosing the query texts and scoring can raise; the judgment
    maps are then filed under the running offsets. *)
Definition batched_outcome (self : @evaluator emb score) (m : @model emb)
  : result (@batched_state score) :=
  fq ←! batched_encode_queries_func m;
  fc ←! batched_encode_corpus_func m;
  texts ←! batched_query_texts self;
  rs ←! batched_scores smax self (fq texts (batch_size self))
          (fc (PStr <$> all_docs self) (batch_size self)) 0 0 (samples self);
  Ok {| query_idx := query_offset (samples self);
        docs_idx := doc_offset (samples self);
        b_results := keyed (pretty <$> fake_qids 0 (samples self)) rs;
        b_qrels := keyed (pretty <$> fake_qids 0 (samples self))
                         (batched_judgments <$> samples self) |}.

(** The individual strategy up to its collections: only scoring can raise;
    the judgment maps are then filed under the sample positions. *)
Definition individual_outcome (self : @evaluator emb score) (m : @model emb)
  : result (@individual_state emb score) :=
  r ←! individual_scores smax self m None (samples self);
  Ok {| i_results := keyed (pretty <$> seq 0 (length (samples self))) r.1;
        i_qrels := keyed (pretty <$> seq 0 (length (samples self)))
                         (individual_judgments <$> samples self);
        i_locals := r.2 |}.

End QrelsNotions.

(** * Properties *)

(** ** Generic facts: the error monad, dictionary comprehensions *)

Lemma rbind_Ok {A B} (r : result A) (k : A → result B) (b : B) :
  rbind r k = Ok b ↔ ∃ a, r = Ok a ∧ k a = Ok b.
Proof.
  destruct r as [a|e]; simpl; split.
  - intros H. by exists a.
  - by intros (a' & [= <-] & H).
  - done.
  - by intros (a' & [=] & _).
Qed.

Lemma enumerate_snoc {A} (l : list A) (x : A) :
  enumerate (l ++ [x]) = enumerate l ++ [(length l, x)].
Proof.
  unfold enumerate. rewrite imap_app. simpl.
  by rewrite Nat.add_0_r.
Qed.

Lemma dict_comp_nil {A V} (f : nat → A → V) : dict_comp f [] = ∅.
Proof. done. Qed.

Lemma dict_comp_snoc {A V} (f : nat → A → V) (l : list A) (x : A) :
  dict_comp f (l ++ [x]) = <[pretty (length l) := f (length l) x]> (dict_comp f l).
Proof.
  unfold dict_comp. by rewrite enumerate_snoc, foldl_app.
Qed.

Lemma dict_comp_lookup {A V} (f : nat → A → V) (l : list A) (i : nat) :
  dict_comp f l !! pretty i = f i <$> l !! i.
Proof.
  induction l as [|x l IH] using rev_ind.
  - by rewrite dict_comp_nil, lookup_empty.
  - rewrite dict_comp_snoc.
    destruct (decide (i = length l)) as [->|Hne].
    + rewrite lookup_insert_eq.
      by rewrite lookup_app_r, Nat.sub_diag by lia.
    + rewrite lookup_insert_ne by (intros Heq; by apply (inj pretty) in Heq).
      rewrite IH.
      destruct (decide (i < length l)) as [Hlt|Hge].
      * by rewrite lookup_app_l.
      * rewrite !lookup_ge_None_2; [done| |lia].
        rewrite length_app. simpl. lia.
Qed.

Lemma dict_comp_dom {A V} (f : nat → A → V) (l : list A) :
  dom (dict_comp f l) = index_keys (length l).
Proof.
  unfold index_keys.
  induction l as [|x l IH] using rev_ind.
  - by rewrite dict_comp_nil, dom_empty_L.
  - rewrite dict_comp_snoc, dom_insert_L, IH, length_app. simpl.
    rewrite seq_app, fmap_app, list_to_set_app_L. simpl.
    rewrite (right_id_L ∅ (∪)). apply (comm_L (∪)).
Qed.

Lemma elem_of_index_keys (n : nat) (k : string) :
  k ∈ index_keys n ↔ ∃ i, i < n ∧ k = pretty i.
Proof.
  unfold index_keys. rewrite elem_of_list_to_set, list_elem_of_fmap.
  split.
  - intros (i & -> & Hi). apply elem_of_seq in Hi. exists i. split; [lia|done].
  - intros (i & Hi & ->). exists i. split; [done|]. apply elem_of_seq. lia.
Qed.

Lemma size_index_keys (n : nat) : size (index_keys n) = n.
Proof.
  unfold index_keys. rewrite size_list_to_set.
  - by rewrite length_fmap, length_seq.
  - apply NoDup_fmap; [apply _|apply NoDup_seq].
Qed.

Lemma dict_comp_size {A V} (f : nat → A → V) (l : list A) :
  size (dict_comp f l) = length l.
Proof. by rewrite <-size_dom, dict_comp_dom, size_index_keys. Qed.

Lemma dict_comp_ext {A V} (f g : nat → A → V) (l : list A) :
  (∀ i x, l !! i = Some x → f i x = g i x) → dict_comp f l = dict_comp g l.
Proof.
  induction l as [|x l IH] using rev_ind; [done|].
  intros Hfg. rewrite !dict_comp_snoc.
  rewrite Hfg by (by rewrite lookup_app_r, Nat.sub_diag by lia).
  rewrite IH; [done|].
  intros i y Hi. apply Hfg. rewrite lookup_app_l; [done|].
  by eapply lookup_lt_Some.
Qed.

(** ** The rerank scorer *)

Section Scorer.

Context {emb score : Type}.
Variable smax : score → score → score.
Variable sle : score → score → Prop.

Lemma foldl_smax_is_max (a : score) (l : list score) :
  max_order sle smax → is_max_of sle (foldl smax a l) (a :: l).
Proof.
  intros Hord. revert a.
  induction l as [|x l IH]; intros a; simpl.
  - split; [apply list_elem_of_here|].
    intros y Hy. apply list_elem_of_singleton in Hy as ->.
    pose proof (smax_ub_l _ _ Hord a a) as Hle.
    by destruct (smax_choice _ _ Hord a a) as [-> | ->] in Hle.
  - destruct (IH (smax a x)) as [Hin Hub]. split.
    + apply elem_of_cons in Hin as [Heq | Hin].
      * rewrite Heq.
        destruct (smax_choice _ _ Hord a x) as [-> | ->].
        -- apply list_elem_of_here.
        -- apply list_elem_of_further, list_elem_of_here.
      * by do 2 apply list_elem_of_further.
    + intros y Hy.
      assert (Hm : sle (smax a x) (foldl smax (smax a x) l))
        by apply Hub, list_elem_of_here.
      apply elem_of_cons in Hy as [-> | Hy].
      * eapply (sle_trans _ _ Hord); [apply (smax_ub_l _ _ Hord)|exact Hm].
      * apply elem_of_cons in Hy as [-> | Hy].
        -- eapply (sle_trans _ _ Hord); [apply (smax_ub_r _ _ Hord)|exact Hm].
        -- by apply Hub, list_elem_of_further.
Qed.

Lemma best_score_is_max (sim : emb → emb → score) q0 qs d :
  max_order sle smax →
  is_max_of sle (best_score smax sim q0 qs d) ((λ q, sim q d) <$> q0 :: qs).
Proof. intros Hord. by apply foldl_smax_is_max. Qed.

(** Folding the rows of the similarity matrix column by column. *)
Lemma amax_rows_lookup (sim : emb → emb → score) (qs ds : list emb) (acc : list score) j a d :
  acc !! j = Some a → ds !! j = Some d →
  foldl (zip_with smax) acc (sim_matrix sim qs ds) !! j
  = Some (foldl smax a ((λ q, sim q d) <$> qs)).
Proof.
  revert acc a. induction qs as [|q qs IH]; intros acc a Hacc Hd; [done|].
  simpl. apply IH; [|done].
  by rewrite lookup_zip_with, Hacc, list_lookup_fmap, Hd.
Qed.

Lemma amax_rows_length (sim : emb → emb → score) (qs ds : list emb) (acc : list score) :
  length acc = length ds →
  length (foldl (zip_with smax) acc (sim_matrix sim qs ds)) = length ds.
Proof.
  revert acc. induction qs as [|q qs IH]; intros acc Hacc; [done|].
  simpl. apply IH. rewrite length_zip_with, length_fmap. lia.
Qed.

Lemma amax_sim_matrix (sim : emb → emb → score) q0 (qs ds : list emb) :
  amax_dim0 smax (sim_matrix sim (q0 :: qs) ds)
  = Ok (best_score smax sim q0 qs <$> ds).
Proof.
  simpl. f_equal. apply list_eq. intros j.
  rewrite list_lookup_fmap.
  destruct (ds !! j) as [d|] eqn:Hd; simpl.
  - apply amax_rows_lookup; [|done]. by rewrite list_lookup_fmap, Hd.
  - apply lookup_ge_None_2. rewrite amax_rows_length by apply length_fmap.
    by apply lookup_ge_None_1.
Qed.

(** The maximum over a single row is that row. *)
Lemma amax_single_row (r : list score) : amax_dim0 smax [r] = Ok r.
Proof. done. Qed.

(** With a pairwise similarity function, at least one query row and at
    least one candidate, the scorer returns the comprehension over the
    candidates' best scores. *)
Lemma rerank_pairwise (self : evaluator) sim q0 qs (ds : list emb) :
  pairwise_similarity sim (similarity_fct self) → ds ≠ [] →
  rerank smax self (q0 :: qs) ds
  = Ok (dict_comp (λ _ s, s) (best_score smax sim q0 qs <$> ds)).
Proof.
  intros Hsim Hds. unfold rerank.
  destruct ds as [|d ds]; [done|].
  cbn [length].
  destruct (Hsim (q0 :: qs) (d :: ds)) as [-> | (q & [= -> ->] & ->)].
  - by rewrite amax_sim_matrix.
  - done.
Qed.

(** C5: whatever the Candidate Embedding Block (any number of rows, zero
    included), the Rerank Scorer given a Query Embedding Block with no rows
    raises [ValueError("Empty query embedding")], the specification's
    [InvalidInput]. *)
Theorem rerank_empty_query_block (self : evaluator) (docs_emb : list emb) :
  rerank smax self [] docs_emb = Raise (ValueError "Empty query embedding") ∧
  InvalidInput (ValueError "Empty query embedding").
Proof. split; [done|]. by eexists. Qed.

(** C6: for a Query Embedding Block with at least one row and a Candidate
    Embedding Block with no rows, the Rerank Scorer returns the empty Score
    Map and raises nothing. *)
Theorem rerank_no_candidates (self : evaluator) (query_emb : list emb) :
  1 ≤ length query_emb →
  rerank smax self query_emb [] = Ok ∅.
Proof. intros HR. destruct query_emb; [simpl in HR; lia|done]. Qed.

(** C7: for R >= 1 query rows and C >= 1 candidates the Score Map has
    exactly one entry per candidate: its keys are exactly the strings ["0"]
    to ["C-1"], there are C of them, and every value is a scalar of type
    [score] (the map's value type), not a tensor. *)
Theorem rerank_score_map_keys (self : evaluator) (sim : emb → emb → score)
    (query_emb docs_emb : list emb) :
  pairwise_similarity sim (similarity_fct self) →
  1 ≤ length query_emb → 1 ≤ length docs_emb →
  ∃ m : gmap string score,
    rerank smax self query_emb docs_emb = Ok m ∧
    dom m = index_keys (length docs_emb) ∧
    size m = length docs_emb ∧
    (∀ k, is_Some (m !! k) ↔ ∃ i, i < length docs_emb ∧ k = pretty i) ∧
    (∀ i, i < length docs_emb → ∃ v : score, m !! pretty i = Some v).
Proof.
  intros Hsim HR HC.
  destruct query_emb as [|q0 qs]; [simpl in HR; lia|].
  assert (Hds : docs_emb ≠ []) by (intros ->; simpl in HC; lia).
  eexists. split; [by apply rerank_pairwise|].
  split; [by rewrite dict_comp_dom, length_fmap|].
  split; [by rewrite dict_comp_size, length_fmap|].
  split.
  - intros k. rewrite <-elem_of_dom, dict_comp_dom, length_fmap.
    apply elem_of_index_keys.
  - intros i Hi. rewrite dict_comp_lookup, list_lookup_fmap.
    destruct (lookup_lt_is_Some_2 docs_emb i Hi) as [d ->]. by eexists.
Qed.

(** C2: with R > 1 query-variant rows and C >= 1 candidates, the score of
    candidate [j] is the maximum, over the R rows, of the similarity between
    that row and candidate [j]: it is one of these R similarities and none of
    them exceeds it. *)
Theorem rerank_max_over_variants (self : evaluator) (sim : emb → emb → score)
    (query_emb docs_emb : list emb) :
  max_order sle smax →
  pairwise_similarity sim (similarity_fct self) →
  1 < length query_emb → 1 ≤ length docs_emb →
  ∃ m : gmap string score,
    rerank smax self query_emb docs_emb = Ok m ∧
    ∀ j d, docs_emb !! j = Some d →
      ∃ v, m !! pretty j = Some v ∧
           is_max_of sle v ((λ q, sim q d) <$> query_emb).
Proof.
  intros Hord Hsim HR HC.
  destruct query_emb as [|q0 qs]; [simpl in HR; lia|].
  assert (Hds : docs_emb ≠ []) by (intros ->; simpl in HC; lia).
  eexists. split; [by apply rerank_pairwise|].
  intros j d Hd. exists (best_score smax sim q0 qs d). split.
  - by rewrite dict_comp_lookup, list_lookup_fmap, Hd.
  - by apply best_score_is_max.
Qed.

(** C10: with exactly one query row and C >= 1 candidates, the score of
    candidate [j] is the similarity between the query row and candidate [j].
    The scorer reduces every two-dimensional similarity tensor with the
    row-wise maximum, also a [1, C] one, and that maximum is the row itself;
    so the [1, C] matrix and the degenerate [C] vector give the same map. *)
Theorem rerank_single_query_row (self : evaluator) (sim : emb → emb → score)
    (q : emb) (docs_emb : list emb) :
  pairwise_similarity sim (similarity_fct self) →
  1 ≤ length docs_emb →
  amax_dim0 smax (sim_matrix sim [q] docs_emb) = Ok (sim q <$> docs_emb) ∧
  ∃ m : gmap string score,
    rerank smax self [q] docs_emb = Ok m ∧
    ∀ j d, docs_emb !! j = Some d → m !! pretty j = Some (sim q d).
Proof.
  intros Hsim HC. split; [done|].
  assert (Hds : docs_emb ≠ []) by (intros ->; simpl in HC; lia).
  eexists. split; [by apply rerank_pairwise|].
  intros j d Hd. by rewrite dict_comp_lookup, list_lookup_fmap, Hd.
Qed.

End Scorer.

(** ** Dictionaries built by a loop *)

Lemma insert_all_cons {V} (m : gmap string V) k v (kvs : list (string * V)) :
  insert_all m ((k, v) :: kvs) = insert_all (<[k:=v]> m) kvs.
Proof. done. Qed.

Lemma insert_all_list_to_map {V} (m : gmap string V) (kvs : list (string * V)) :
  NoDup kvs.*1 → insert_all m kvs = list_to_map kvs ∪ m.
Proof.
  revert m. induction kvs as [|[k v] kvs IH]; intros m Hnd.
  - simpl. by rewrite (left_id_L ∅ (∪)).
  - rewrite fmap_cons in Hnd. simpl in Hnd.
    apply NoDup_cons in Hnd as [Hk Hnd].
    rewrite insert_all_cons, IH by done. simpl.
    rewrite <-insert_union_l.
    by rewrite insert_union_r by by apply not_elem_of_list_to_map_1.
Qed.

Lemma insert_all_keyed {V} (ids : list string) (vs : list V) :
  NoDup ids → length ids = length vs →
  insert_all ∅ (zip ids vs) = keyed ids vs.
Proof.
  intros Hnd Hlen. rewrite insert_all_list_to_map.
  - by rewrite (right_id_L ∅ (∪)).
  - rewrite fst_zip; [done|lia].
Qed.

Lemma insert_all_dom {V} (m : gmap string V) (kvs : list (string * V)) :
  dom (insert_all m kvs) = dom m ∪ list_to_set kvs.*1.
Proof.
  revert m. induction kvs as [|[k v] kvs IH]; intros m.
  - simpl. by rewrite (right_id_L ∅ (∪)).
  - rewrite insert_all_cons, IH, dom_insert_L, fmap_cons. simpl.
    rewrite (comm_L (∪) {[k]} (dom m)). by rewrite (assoc_L (∪)).
Qed.

Lemma keyed_dom {V} (ids : list string) (vs : list V) :
  length ids = length vs → dom (keyed ids vs) = list_to_set ids.
Proof.
  intros Hlen. unfold keyed. rewrite dom_list_to_map_L, fst_zip; [done|lia].
Qed.

Lemma keyed_lookup {V} (ids : list string) (vs : list V) k id v :
  NoDup ids → length ids = length vs →
  ids !! k = Some id → vs !! k = Some v →
  keyed ids vs !! id = Some v.
Proof.
  intros Hnd Hlen Hid Hv. unfold keyed.
  apply elem_of_list_to_map_1.
  - rewrite fst_zip; [done|lia].
  - apply list_elem_of_lookup. exists k.
    by rewrite lookup_zip_with, Hid, Hv.
Qed.

Lemma keyed_size {V} (ids : list string) (vs : list V) :
  NoDup ids → length ids = length vs → size (keyed ids vs) = length ids.
Proof.
  intros Hnd Hlen.
  by rewrite <-size_dom, keyed_dom, size_list_to_set.
Qed.

(** ** The identifiers of the batched loop *)

Lemma fake_qids_length qi ss : length (fake_qids qi ss) = length ss.
Proof. revert qi. induction ss as [|s ss IH]; intros qi; simpl; [done|]. by rewrite IH. Qed.

Lemma fake_qids_gt qi ss x :
  Forall (λ s, 1 ≤ num_subqueries s) ss → x ∈ fake_qids qi ss → qi < x.
Proof.
  revert qi. induction ss as [|s ss IH]; intros qi Hall Hx; simpl in Hx.
  - by apply elem_of_nil in Hx.
  - apply Forall_cons in Hall as [Hs Hall].
    apply elem_of_cons in Hx as [-> | Hx]; [lia|].
    apply IH in Hx; [lia|done].
Qed.

Lemma fake_qids_NoDup qi ss :
  Forall (λ s, 1 ≤ num_subqueries s) ss → NoDup (fake_qids qi ss).
Proof.
  revert qi. induction ss as [|s ss IH]; intros qi Hall; simpl.
  - apply NoDup_nil_2.
  - pose proof Hall as Hall'. apply Forall_cons in Hall' as [Hs Hss].
    apply NoDup_cons. split; [|by apply IH].
    intros Hin. apply fake_qids_gt in Hin; [lia|done].
Qed.

Lemma fake_qids_single qi ss :
  all_single_string ss → fake_qids qi ss = seq (S qi) (length ss).
Proof.
  revert qi. induction ss as [|s ss IH]; intros qi Hall; simpl; [done|].
  apply Forall_cons in Hall as [[t Ht] Hall].
  unfold num_subqueries. rewrite Ht, Nat.add_1_r. by rewrite IH.
Qed.

Lemma pretty_ids_NoDup (l : list nat) : NoDup l → NoDup (pretty <$> l).
Proof. intros. by apply (NoDup_fmap_2 _). Qed.

(** ** The scoring loops *)

Section LoopFacts.

Context {emb score : Type}.
Variable smax : score → score → score.

Lemma slice_here {A} (pre x post : list A) :
  slice (pre ++ x ++ post) (length pre) (length pre + length x) = x.
Proof.
  unfold slice. rewrite drop_app_length.
  replace (length pre + length x - length pre) with (length x) by lia.
  by rewrite take_app_length.
Qed.

Lemma slice_empty {A} (l : list A) (a : nat) : slice l a (a + 0) = [].
Proof. unfold slice. by rewrite Nat.add_0_r, Nat.sub_diag. Qed.

(** The batched loop, from any state: scores first, dictionaries after. *)
Lemma batched_loop_eq (self : @evaluator emb score) (qe de : list emb)
    (ss : list sample) (st0 : batched_state) :
  foldlM (batched_step smax self qe de) st0 ss
  = (rs ←! batched_scores smax self qe de (query_idx st0) (docs_idx st0) ss;
     Ok {| query_idx := query_idx st0 + query_offset ss;
           docs_idx := docs_idx st0 + doc_offset ss;
           b_results :=
             insert_all (b_results st0)
               (zip (pretty <$> fake_qids (query_idx st0) ss) rs);
           b_qrels :=
             insert_all (b_qrels st0)
               (zip (pretty <$> fake_qids (query_idx st0) ss)
                    (batched_judgments <$> ss)) |}).
Proof.
  revert st0. induction ss as [|s ss IH]; intros st0.
  - destruct st0. simpl. unfold query_offset, doc_offset. simpl.
    by rewrite !Nat.add_0_r.
  - cbn [foldlM batched_scores]. unfold batched_step at 1.
    destruct (rerank smax self _ _) as [scores|e]; [|done].
    cbn [rbind]. rewrite IH. cbn [query_idx docs_idx b_results b_qrels].
    destruct (batched_scores smax self qe de _ _ ss) as [rest|e]; [|done].
    cbn [rbind]. f_equal. unfold query_offset, doc_offset.
    rewrite !fmap_cons. cbn [sum_list_with sum_list fake_qids zip_with].
    rewrite !fmap_cons. cbn [zip_with]. rewrite ?insert_all_cons.
    f_equal; try (unfold id; lia); done.
Qed.

Lemma batched_scores_length (self : @evaluator emb score) qe de qi di ss rs :
  batched_scores smax self qe de qi di ss = Ok rs → length rs = length ss.
Proof.
  revert qi di rs. induction ss as [|s ss IH]; intros qi di rs; simpl.
  - by intros [= <-].
  - intros (scores & _ & Hrest)%rbind_Ok.
    apply rbind_Ok in Hrest as (rest & Hrest & [= <-]).
    simpl. f_equal. by eapply IH.
Qed.

(** A sample without query variants stops the batched loop: the scorer is
    handed an empty Query Embedding Block. *)
Lemma batched_scores_variants (self : @evaluator emb score) qe de qi di ss rs :
  batched_scores smax self qe de qi di ss = Ok rs →
  Forall (λ s, 1 ≤ num_subqueries s) ss.
Proof.
  revert qi di rs. induction ss as [|s ss IH]; intros qi di rs; simpl.
  - intros _. apply Forall_nil_2.
  - intros (scores & Hs & Hrest)%rbind_Ok.
    apply rbind_Ok in Hrest as (rest & Hrest & _).
    apply Forall_cons. split; [|by eapply IH].
    destruct (num_subqueries s) as [|n]; [|lia].
    by rewrite slice_empty in Hs.
Qed.

Lemma enumerate_from_cons {A} (n : nat) (x : A) (l : list A) :
  imap (λ i y, (n + i, y)) (x :: l) = (n, x) :: imap (λ i y, (S n + i, y)) l.
Proof.
  simpl. rewrite Nat.add_0_r. f_equal.
  apply imap_ext. intros i y _. simpl. f_equal. lia.
Qed.

Lemma individual_step_unfold (self : @evaluator emb score) (m : @model emb)
    (st : individual_state) (i : nat) (s : sample) :
  individual_step smax self m st (i, s)
  = match individual_locals self m (i_locals st) s with
    | None => Raise UnboundLocalError
    | Some (query_emb, docs_emb) =>
      scores ←! rerank smax self query_emb docs_emb;
      Ok {| i_results := <[pretty i := scores]> (i_results st);
            i_qrels := <[pretty i := individual_judgments s]> (i_qrels st);
            i_locals := Some (query_emb, docs_emb) |}
    end.
Proof.
  unfold individual_step, individual_locals. simpl.
  destruct (query s); [done| |]; by destruct (i_locals st) as [[??]|].
Qed.

(** The individual loop, from any state and any starting index. *)
Lemma individual_loop_eq (self : @evaluator emb score) (m : @model emb)
    (ss : list sample) (n : nat) (st0 : individual_state) :
  foldlM (individual_step smax self m) st0 (imap (λ i x, (n + i, x)) ss)
  = (r ←! individual_scores smax self m (i_locals st0) ss;
     Ok {| i_results :=
             insert_all (i_results st0)
               (zip (pretty <$> seq n (length ss)) r.1);
           i_qrels :=
             insert_all (i_qrels st0)
               (zip (pretty <$> seq n (length ss))
                    (individual_judgments <$> ss));
           i_locals := r.2 |}).
Proof.
  revert n st0. induction ss as [|s ss IH]; intros n st0.
  - by destruct st0.
  - rewrite enumerate_from_cons. cbn [foldlM individual_scores].
    rewrite individual_step_unfold.
    destruct (individual_locals self m (i_locals st0) s) as [[qe de]|]; [|done].
    destruct (rerank smax self qe de) as [scores|e]; [|done].
    cbn [rbind]. rewrite IH. cbn [i_results i_qrels i_locals].
    by destruct (individual_scores smax self m _ ss) as [[rest l]|e].
Qed.

Lemma individual_scores_length (self : @evaluator emb score) m locals ss r :
  individual_scores smax self m locals ss = Ok r → length r.1 = length ss.
Proof.
  revert locals r. induction ss as [|s ss IH]; intros locals r; simpl.
  - by intros [= <-].
  - destruct (individual_locals self m locals s) as [[qe de]|]; [|done].
    intros (scores & _ & Hrest)%rbind_Ok.
    apply rbind_Ok in Hrest as (rest & Hrest & [= <-]).
    simpl. f_equal. by eapply IH.
Qed.

End LoopFacts.

(** ** The Results and Qrels collections *)

Section Collections.

Context {emb score : Type}.
Variable smax : score → score → score.

(** What a completed batched loop leaves behind. *)
Lemma batched_collections_Ok (self : @evaluator emb score) (m : @model emb)
    (st : batched_state) :
  batched_collections smax self m = Ok st →
  ∃ qe de rs,
    batched_scores smax self qe de 0 0 (samples self) = Ok rs ∧
    b_results st = keyed (pretty <$> fake_qids 0 (samples self)) rs ∧
    b_qrels st = keyed (pretty <$> fake_qids 0 (samples self))
                       (batched_judgments <$> samples self).
Proof.
  unfold batched_collections.
  intros (fq & _ & H)%rbind_Ok.
  apply rbind_Ok in H as (fc & _ & H).
  apply rbind_Ok in H as (texts & _ & H).
  rewrite batched_loop_eq in H.
  apply rbind_Ok in H as (rs & Hrs & [= <-]).
  eexists _, _, rs. split; [exact Hrs|].
  pose proof (batched_scores_variants _ _ _ _ _ _ _ _ Hrs) as Hvar.
  pose proof (batched_scores_length _ _ _ _ _ _ _ _ Hrs) as Hlen.
  cbn [b_results b_qrels batched_init query_idx].
  assert (NoDup (pretty <$> fake_qids 0 (samples self)))
    by by apply pretty_ids_NoDup, fake_qids_NoDup.
  split; apply insert_all_keyed; try done.
  - by rewrite length_fmap, fake_qids_length.
  - by rewrite !length_fmap, fake_qids_length.
Qed.

(** What a completed individual loop leaves behind. *)
Lemma individual_collections_Ok (self : @evaluator emb score) (m : @model emb)
    (st : individual_state) :
  individual_collections smax self m = Ok st →
  ∃ r,
    individual_scores smax self m None (samples self) = Ok r ∧
    i_results st = keyed (pretty <$> seq 0 (length (samples self))) r.1 ∧
    i_qrels st = keyed (pretty <$> seq 0 (length (samples self)))
                       (individual_judgments <$> samples self).
Proof.
  unfold individual_collections, enumerate.
  rewrite (imap_ext _ (λ i x, (0 + i, x))) by done.
  rewrite individual_loop_eq.
  intros (r & Hr & [= <-])%rbind_Ok.
  exists r. split; [exact Hr|].
  pose proof (individual_scores_length _ _ _ _ _ _ Hr) as Hlen.
  cbn [i_results i_qrels individual_init].
  assert (NoDup (pretty <$> seq 0 (length (samples self))))
    by apply pretty_ids_NoDup, NoDup_seq.
  split; apply insert_all_keyed; try done.
  - by rewrite length_fmap, length_seq.
  - by rewrite !length_fmap, length_seq.
Qed.

(** C9: in the batched metric computation, when every sample has at least
    one query variant, the Results and the Qrels collections built by the
    loop have the same key set: the printed running query offsets, which are
    pairwise distinct, one per sample. *)
Theorem batched_identifiers (self : @evaluator emb score) (m : @model emb)
    (st : batched_state) :
  Forall (λ s, 1 ≤ num_subqueries s) (samples self) →
  batched_collections smax self m = Ok st →
  dom (b_results st) = dom (b_qrels st) ∧
  dom (b_results st) = list_to_set (pretty <$> fake_qids 0 (samples self)) ∧
  NoDup (pretty <$> fake_qids 0 (samples self)) ∧
  length (fake_qids 0 (samples self)) = length (samples self) ∧
  size (b_results st) = length (samples self) ∧
  size (b_qrels st) = length (samples self).
Proof.
  intros Hvar (qe & de & rs & Hrs & -> & ->)%batched_collections_Ok.
  pose proof (batched_scores_length _ _ _ _ _ _ _ _ Hrs) as Hlen.
  assert (Hnd : NoDup (pretty <$> fake_qids 0 (samples self)))
    by by apply pretty_ids_NoDup, fake_qids_NoDup.
  assert (Hl1 : length (pretty <$> fake_qids 0 (samples self)) = length rs)
    by by rewrite length_fmap, fake_qids_length.
  assert (Hl2 : length (pretty <$> fake_qids 0 (samples self))
                = length (batched_judgments <$> samples self))
    by by rewrite !length_fmap, fake_qids_length.
  rewrite !keyed_dom, !keyed_size by done.
  rewrite length_fmap, fake_qids_length. done.
Qed.

End Collections.

(** ** Relevance judgments *)

Lemma batched_judgments_spec (s : sample) :
  judgment_map_of s (batched_judgments s).
Proof.
  unfold batched_judgments, judgments. split.
  - apply dict_comp_dom.
  - intros i doc Hdoc. by rewrite dict_comp_lookup, Hdoc.
Qed.

(** Testing membership in [set(positive)] or in [positive] itself gives the
    same labels. *)
Lemma individual_judgments_eq (s : sample) :
  individual_judgments s = batched_judgments s.
Proof.
  unfold individual_judgments, batched_judgments, judgments.
  apply dict_comp_ext. intros i doc _.
  by rewrite (bool_decide_ext _ (doc ∈ positive s))
    by apply elem_of_list_to_set.
Qed.

(** ** Batched against individual *)

Section Equivalence.

Context {emb score : Type}.
Variable smax : score → score → score.
Variable evaluate :
  gmap string (gmap string nat) → gmap string (gmap string score) → list nat →
  result (gmap string score * gmap string score *
          gmap string score * gmap string score).

(** On single-string queries and with a pointwise encoder, slicing the
    flattened embeddings gives the scorer the blocks that encoding the
    sample on its own gives it. *)
Lemma scores_agree (self : @evaluator emb score) (m : @model emb)
    (enc_q enc_c : pyval → emb) (ss : list sample)
    (pre_q pre_d : list emb) (locals : option (list emb * list emb)) :
  pointwise (individual_encode_queries_func m) enc_q →
  pointwise (individual_encode_corpus_func m) enc_c →
  all_single_string ss →
  batched_scores smax self
    (pre_q ++ (enc_q <$> (query <$> ss)))
    (pre_d ++ (enc_c <$> (PStr <$> concat (candidates <$> ss))))
    (length pre_q) (length pre_d) ss
  = (r ←! individual_scores smax self m locals ss; Ok r.1).
Proof.
  intros Hq Hc. revert pre_q pre_d locals.
  induction ss as [|s ss IH]; intros pre_q pre_d locals Hall; [done|].
  apply Forall_cons in Hall as [[t Ht] Hall].
  cbn [batched_scores individual_scores].
  unfold individual_locals, num_subqueries. rewrite Ht, Hq, Hc.
  rewrite !fmap_cons. cbn [concat]. rewrite !fmap_app.
  change (enc_q (query s) :: (enc_q <$> (query <$> ss)))
    with ([enc_q (query s)] ++ (enc_q <$> (query <$> ss))).
  replace (length (candidates s))
    with (length (enc_c <$> (PStr <$> candidates s)))
    by by rewrite !length_fmap.
  change 1 with (length [enc_q (query s)]) at 1 2.
  rewrite !slice_here. rewrite <-Ht. simpl.
  destruct (rerank smax self _ _) as [scores|e]; [|done].
  cbn [rbind].
  rewrite (cons_middle (enc_q (query s)) pre_q).
  rewrite (assoc_L (++) pre_q), (assoc_L (++) pre_d).
  replace (length pre_q + 1) with (length (pre_q ++ [enc_q (query s)]))
    by (rewrite length_app; simpl; lia).
  rewrite <-length_app.
  match goal with
  | |- context [individual_scores smax self m ?l ss] =>
    rewrite (IH _ _ l) by done
  end.
  by destruct (individual_scores smax self m _ ss) as [[rest l]|e].
Qed.

Lemma evaluate_and_merge_blind (self : @evaluator emb score)
    (ids1 ids2 : list string) (rs : list (gmap string score))
    (js : list (gmap string nat)) :
  identifier_blind evaluate →
  NoDup ids1 → NoDup ids2 →
  length ids1 = length rs → length ids2 = length rs → length js = length rs →
  evaluate_and_merge evaluate self (keyed ids1 rs) (keyed ids1 js)
  = evaluate_and_merge evaluate self (keyed ids2 rs) (keyed ids2 js).
Proof.
  intros Hblind Hnd1 Hnd2 Hl1 Hl2 Hjs. unfold evaluate_and_merge.
  pose proof (Hblind ids1 ids2 (zip rs js) (k_values self) Hnd1 Hnd2) as Heq.
  rewrite fst_zip, snd_zip in Heq by lia.
  rewrite Heq; [done| |]; rewrite length_zip_with; lia.
Qed.

(** On an empty sample set the batched strategy raises [IndexError] when it
    inspects [self.samples[0]], provided it got as far as that. *)
Lemma batched_empty_samples (self : @evaluator emb score) (m : @model emb) fq fc :
  samples self = [] →
  batched_encode_queries_func m = Ok fq →
  batched_encode_corpus_func m = Ok fc →
  compute_metrics_batched smax evaluate self m = Raise IndexError.
Proof.
  intros Hs Hq Hc.
  unfold compute_metrics_batched, batched_collections, batched_query_texts.
  by rewrite Hq, Hc, Hs.
Qed.

(** On an empty sample set the individual strategy raises nothing of its
    own: it hands two empty collections to the engine. *)
Lemma individual_empty_samples (self : @evaluator emb score) (m : @model emb) :
  samples self = [] →
  compute_metrics_individual smax evaluate self m
  = evaluate_and_merge evaluate self ∅ ∅.
Proof.
  intros Hs. unfold compute_metrics_individual, individual_collections.
  by rewrite Hs.
Qed.

(** For a non-empty sample set in which every query is a single string,
    when both strategies reach the same pointwise encode functions and the
    engine does not look at the identifiers, the batched and the individual
    metric computation return the same merged metric mapping (or raise the
    same exception), although one stores its collections under ["1"] ..
    ["n"] and the other under ["0"] .. ["n-1"]. *)
Theorem strategies_agree (self : @evaluator emb score) (m : @model emb)
    (enc_q enc_c : pyval → emb) :
  samples self ≠ [] →
  all_single_string (samples self) →
  same_deterministic_encoder m enc_q enc_c →
  identifier_blind evaluate →
  compute_metrics_batched smax evaluate self m
  = compute_metrics_individual smax evaluate self m.
Proof.
  intros Hne Hall ((fq & Hfq & Hpq) & (fc & Hfc & Hpc) & Hiq & Hic) Hblind.
  unfold compute_metrics_batched, batched_collections, batched_query_texts.
  rewrite Hfq, Hfc. cbn [rbind].
  destruct (samples self) as [|s0 ss0] eqn:Hss; [done|].
  pose proof Hall as Hall'. apply Forall_cons in Hall' as [[t0 Ht0] _].
  rewrite Ht0. cbn [rbind]. rewrite <-Hss in *. clear Hss Ht0 t0 s0 ss0 Hne.
  rewrite batched_loop_eq. cbn [batched_init query_idx docs_idx b_results b_qrels].
  unfold all_docs. rewrite Hpq, Hpc.
  pose proof (scores_agree self m enc_q enc_c (samples self) [] [] None
                Hiq Hic Hall) as Hagree.
  simpl in Hagree. rewrite Hagree. clear Hagree.
  unfold compute_metrics_individual, individual_collections, enumerate.
  rewrite (imap_ext _ (λ i x, (0 + i, x)) (samples self)) by done.
  rewrite individual_loop_eq. cbn [individual_init i_results i_qrels i_locals].
  destruct (individual_scores smax self m None (samples self)) as [r|e] eqn:Hr;
    [|done].
  cbn [rbind b_results b_qrels i_results i_qrels].
  pose proof (individual_scores_length _ _ _ _ _ _ Hr) as Hlen.
  rewrite fake_qids_single by done.
  assert (Hj : individual_judgments <$> samples self
               = batched_judgments <$> samples self).
  { apply list_fmap_ext. intros i s _. apply individual_judgments_eq. }
  rewrite Hj.
  rewrite !insert_all_keyed;
    try (apply pretty_ids_NoDup, NoDup_seq);
    try (by rewrite !length_fmap, length_seq).
  apply evaluate_and_merge_blind; try done;
    try (apply pretty_ids_NoDup, NoDup_seq);
    try (by rewrite !length_fmap, length_seq).
  by rewrite length_fmap.
Qed.

End Equivalence.

(** ** The concrete instance meets the assumptions *)

Lemma Z_max_order : max_order Z.le Z.max.
Proof. split; intros; lia. Qed.

Lemma example_similarity_pairwise :
  pairwise_similarity Example.closeness Example.similarity.
Proof. intros qs ds. by left. Qed.

Lemma example_encoder :
  same_deterministic_encoder Example.generic_model Example.embed Example.embed.
Proof.
  split; [|split; [|split]]; try done.
  - by exists Example.encode_texts.
  - by exists Example.encode_texts.
Qed.

Lemma map_zip_keyed {A B} (ids : list string) (es : list (A * B)) :
  map_zip (keyed ids es.*1) (keyed ids es.*2) = keyed ids es.
Proof.
  unfold keyed. revert ids.
  induction es as [|[a b] es IH]; intros [|id ids]; simpl;
    try apply map_zip_with_empty.
  by rewrite <-map_insert_zip_with, IH.
Qed.

Lemma map_fold_keyed {A} (f : A → Z) (ids : list string) (es : list A) :
  NoDup ids → length ids = length es →
  map_fold (λ _ e acc, (acc + f e)%Z) 0%Z (keyed ids es)
  = foldr (λ e acc, (acc + f e)%Z) 0%Z es.
Proof.
  unfold keyed. revert ids.
  induction es as [|e es IH]; intros [|id ids] Hnd Hlen; try done.
  apply NoDup_cons in Hnd as [Hid Hnd]. simpl in Hlen.
  simpl. rewrite map_fold_insert_L.
  - rewrite IH; [done|done|lia].
  - intros. lia.
  - apply not_elem_of_list_to_map_1. rewrite fst_zip; [done|lia].
Qed.

Lemma example_engine_blind : identifier_blind Example.engine.
Proof.
  intros ids1 ids2 es ks Hnd1 Hnd2 Hl1 Hl2.
  unfold Example.engine, Example.total_relevant_scored.
  by rewrite !map_zip_keyed, !map_fold_keyed.
Qed.

(** ** Queries given as a list of variants, in the individual strategy *)

Section VariantLists.

Context {emb score : Type}.
Variable smax : score → score → score.

(** An iteration on a list query assigns neither [query_emb] nor
    [docs_emb]: the scorer runs on whatever an earlier iteration left in
    them, and the name lookup fails if there was none. *)
Lemma individual_step_list_query (self : @evaluator emb score) (m : @model emb)
    (st : individual_state) (i : nat) (s : sample) (l : list string) :
  query s = PList l →
  individual_step smax self m st (i, s)
  = match i_locals st with
    | None => Raise UnboundLocalError
    | Some (query_emb, docs_emb) =>
      scores ←! rerank smax self query_emb docs_emb;
      Ok {| i_results := <[pretty i := scores]> (i_results st);
            i_qrels := <[pretty i := individual_judgments s]> (i_qrels st);
            i_locals := i_locals st |}
    end.
Proof.
  intros Hq. rewrite individual_step_unfold.
  unfold individual_locals. rewrite Hq.
  by destruct (i_locals st) as [[??]|].
Qed.

(** A list query in the first sample: the loop stops on the unbound name. *)
Lemma individual_first_list_query (self : @evaluator emb score) (m : @model emb)
    (s : sample) (ss : list sample) (l : list string) :
  samples self = s :: ss → query s = PList l →
  individual_collections smax self m = Raise UnboundLocalError.
Proof.
  intros Hss Hq. unfold individual_collections. rewrite Hss.
  unfold enumerate. cbn [imap foldlM].
  by rewrite (individual_step_list_query _ _ _ _ _ l).
Qed.

End VariantLists.

(** C3: the individual strategy does not reject a sample whose query is a
    list of variants.  On the two samples below, a string query followed by
    a list query, it returns metrics; the second sample, which has one
    candidate, is stored with the two scores of the first sample. *)
Theorem individual_accepts_variant_list :
  ∃ st metrics,
    individual_collections Z.max Example.mixed_run Example.generic_model
    = Ok st ∧
    compute_metrics_individual Z.max Example.engine Example.mixed_run
      Example.generic_model
    = Ok metrics ∧
    query Example.variants_sample = PList ["cat"; "feline"] ∧
    length (candidates Example.variants_sample) = 1 ∧
    i_results st !! "1" = Some {[ "0" := (-5)%Z; "1" := (-4)%Z ]} ∧
    i_results st !! "1" = i_results st !! "0".
Proof.
  eexists _, _.
  split; [by vm_compute|].
  split; [by vm_compute|].
  by vm_compute.
Qed.

(** ** The entry point *)

(** C4: called on an evaluator with an empty sample set, the entry point
    fails with [InvalidInput]; it does so whatever the two strategies are and
    whichever of them the configuration selects, that is, before it
    dispatches to either. *)
Theorem entry_rejects_empty_samples {emb score : Type}
    (smax : score → score → score)
    (evaluate :
       gmap string (gmap string nat) → gmap string (gmap string score) →
       list nat →
       result (gmap string score * gmap string score *
               gmap string score * gmap string score))
    (self : @evaluator emb score) (m : @model emb) :
  samples self = [] →
  (∃ e, MIRACLRerankingEvaluator_call smax evaluate self m = Raise e ∧
        InvalidInput e) ∧
  ∀ batched individual,
    Evaluator_entry batched individual self m
    = MIRACLRerankingEvaluator_call smax evaluate self m.
Proof.
  intros Hs. unfold MIRACLRerankingEvaluator_call, Evaluator_entry.
  rewrite Hs. split; [|done].
  eexists. split; [done|]. by eexists.
Qed.

(** ** The empty sample set separates the two strategies *)

(** On the empty sample set the batched strategy raises [IndexError] on
    [self.samples[0]], the individual one returns what the engine makes of
    two empty collections. *)
Lemma strategies_differ_on_empty_samples :
  all_single_string (samples Example.empty_run) ∧
  same_deterministic_encoder Example.generic_model Example.embed Example.embed ∧
  identifier_blind Example.engine ∧
  compute_metrics_batched Z.max Example.engine Example.empty_run
    Example.generic_model
  = Raise IndexError ∧
  (∃ metrics,
     compute_metrics_individual Z.max Example.engine Example.empty_run
       Example.generic_model
     = Ok metrics) ∧
  compute_metrics_batched Z.max Example.engine Example.empty_run
    Example.generic_model
  ≠ compute_metrics_individual Z.max Example.engine Example.empty_run
      Example.generic_model.
Proof.
  split; [apply Forall_nil_2|].
  split; [apply example_encoder|].
  split; [apply example_engine_blind|].
  split; [done|].
  split; [eexists; by vm_compute|].
  by vm_compute.
Qed.

(** ** The properties at concrete inputs *)

Lemma rerank_no_candidates_witness :
  1 ≤ length [3%Z] ∧ rerank Z.max Example.strings_run [3%Z] [] = Ok ∅.
Proof.
  split; [simpl; lia|].
  apply (rerank_no_candidates Z.max Example.strings_run [3%Z]). simpl. lia.
Defined.

Lemma rerank_score_map_keys_witness :
  pairwise_similarity Example.closeness (similarity_fct Example.strings_run) ∧
  1 ≤ length [3%Z; 6%Z] ∧ 1 ≤ length [8%Z; 7%Z; 2%Z] ∧
  ∃ m : gmap string Z,
    rerank Z.max Example.strings_run [3%Z; 6%Z] [8%Z; 7%Z; 2%Z] = Ok m ∧
    dom m = index_keys 3 ∧ size m = 3.
Proof.
  split; [apply example_similarity_pairwise|].
  split; [simpl; lia|]. split; [simpl; lia|].
  destruct (rerank_score_map_keys Z.max Example.strings_run Example.closeness
              [3%Z; 6%Z] [8%Z; 7%Z; 2%Z])
    as (m & Hm & Hdom & Hsize & _);
    [apply example_similarity_pairwise|simpl; lia|simpl; lia|].
  exists m. split; [exact Hm|]. split; [exact Hdom|exact Hsize].
Defined.

Lemma rerank_max_over_variants_witness :
  max_order Z.le Z.max ∧
  pairwise_similarity Example.closeness (similarity_fct Example.strings_run) ∧
  1 < length [3%Z; 6%Z] ∧ 1 ≤ length [8%Z; 7%Z; 2%Z] ∧
  ∃ m : gmap string Z,
    rerank Z.max Example.strings_run [3%Z; 6%Z] [8%Z; 7%Z; 2%Z] = Ok m ∧
    ∀ j d, [8%Z; 7%Z; 2%Z] !! j = Some d →
      ∃ v, m !! pretty j = Some v ∧
           is_max_of Z.le v ((λ q, Example.closeness q d) <$> [3%Z; 6%Z]).
Proof.
  split; [apply Z_max_order|].
  split; [apply example_similarity_pairwise|].
  split; [simpl; lia|]. split; [simpl; lia|].
  apply (rerank_max_over_variants Z.max Z.le Example.strings_run
           Example.closeness [3%Z; 6%Z] [8%Z; 7%Z; 2%Z]).
  - apply Z_max_order.
  - apply example_similarity_pairwise.
  - simpl. lia.
  - simpl. lia.
Defined.

Lemma rerank_single_query_row_witness :
  pairwise_similarity Example.closeness (similarity_fct Example.strings_run) ∧
  1 ≤ length [8%Z; 7%Z] ∧
  ∃ m : gmap string Z,
    rerank Z.max Example.strings_run [3%Z] [8%Z; 7%Z] = Ok m ∧
    ∀ j d, [8%Z; 7%Z] !! j = Some d →
      m !! pretty j = Some (Example.closeness 3 d).
Proof.
  split; [apply example_similarity_pairwise|].
  split; [simpl; lia|].
  apply (rerank_single_query_row Z.max Example.strings_run Example.closeness
           3%Z [8%Z; 7%Z]).
  - apply example_similarity_pairwise.
  - simpl. lia.
Defined.

Lemma batched_identifiers_witness :
  ∃ st : batched_state,
    Forall (λ s, 1 ≤ num_subqueries s) (samples Example.variants_run) ∧
    batched_collections Z.max Example.variants_run Example.generic_model
    = Ok st ∧
    fake_qids 0 (samples Example.variants_run) = [2; 5] ∧
    dom (b_results st) = dom (b_qrels st) ∧
    dom (b_results st)
    = list_to_set (pretty <$> fake_qids 0 (samples Example.variants_run)) ∧
    size (b_results st) = 2 ∧ size (b_qrels st) = 2.
Proof.
  assert (Hvar : Forall (λ s, 1 ≤ num_subqueries s)
                        (samples Example.variants_run)).
  { change (samples Example.variants_run)
      with [Example.variants_sample; Example.paws_sample].
    repeat (apply Forall_cons_2; [vm_compute; lia|]). apply Forall_nil_2. }
  destruct (batched_collections Z.max Example.variants_run
              Example.generic_model) as [st|e] eqn:Hrun;
    [|by vm_compute in Hrun].
  exists st. split; [exact Hvar|]. split; [reflexivity|].
  split; [reflexivity|].
  destruct (batched_identifiers Z.max Example.variants_run
              Example.generic_model st Hvar Hrun)
    as (Hdom & Hkeys & _ & _ & Hs1 & Hs2).
  split; [exact Hdom|]. split; [exact Hkeys|]. split; [exact Hs1|exact Hs2].
Defined.

Lemma strategies_agree_witness :
  samples Example.strings_run ≠ [] ∧
  all_single_string (samples Example.strings_run) ∧
  same_deterministic_encoder Example.generic_model Example.embed Example.embed ∧
  identifier_blind Example.engine ∧
  compute_metrics_batched Z.max Example.engine Example.strings_run
    Example.generic_model
  = compute_metrics_individual Z.max Example.engine Example.strings_run
      Example.generic_model.
Proof.
  assert (Hne : samples Example.strings_run ≠ []) by (simpl; discriminate).
  assert (Hall : all_single_string (samples Example.strings_run)).
  { change (samples Example.strings_run)
      with [Example.cat_sample; Example.abc_sample].
    repeat (apply Forall_cons_2; [by eexists|]). apply Forall_nil_2. }
  split; [exact Hne|]. split; [exact Hall|].
  split; [apply example_encoder|]. split; [apply example_engine_blind|].
  apply (strategies_agree Z.max Example.engine Example.strings_run
           Example.generic_model Example.embed Example.embed Hne Hall
           example_encoder example_engine_blind).
Defined.

Lemma entry_rejects_empty_samples_witness :
  samples Example.empty_run = [] ∧
  ∃ e, MIRACLRerankingEvaluator_call Z.max Example.engine Example.empty_run
         Example.generic_model = Raise e ∧
       InvalidInput e.
Proof.
  split; [reflexivity|].
  apply (entry_rejects_empty_samples Z.max Example.engine Example.empty_run
           Example.generic_model).
  reflexivity.
Defined.

(** * Further properties *)

(** ** The scorer: order of the variants, more variants, other candidates *)

Section ScorerMore.

Context {emb score : Type}.
Variable smax : score → score → score.
Variable sle : score → score → Prop.

Lemma is_max_of_unique (v v' : score) (l l' : list score) :
  (∀ a b, sle a b → sle b a → a = b) →
  l ≡ₚ l' → is_max_of sle v l → is_max_of sle v' l' → v = v'.
Proof.
  intros Hanti Hperm [Hin Hub] [Hin' Hub'].
  apply Hanti.
  - apply Hub'. by rewrite <-Hperm.
  - apply Hub. by rewrite Hperm.
Qed.

Lemma rerank_pairwise_lookup (sim : emb → emb → score) q0 qs
    (ds : list emb) (j : nat) :
  dict_comp (λ (_ : nat) (s : score), s) (best_score smax sim q0 qs <$> ds) !! pretty j
  = best_score smax sim q0 qs <$> (ds !! j).
Proof. by rewrite dict_comp_lookup, list_lookup_fmap, option_fmap_id. Qed.

(** The Score Map does not depend on the order of the query variants. *)
Theorem rerank_variant_order (self : @evaluator emb score)
    (sim : emb → emb → score) (qs qs' ds : list emb) :
  max_order sle smax →
  (∀ a b, sle a b → sle b a → a = b) →
  pairwise_similarity sim (similarity_fct self) →
  qs ≡ₚ qs' →
  rerank smax self qs ds = rerank smax self qs' ds.
Proof.
  intros Hord Hanti Hsim Hperm.
  destruct qs as [|q0 qs0].
  { apply Permutation_nil_l in Hperm. by subst. }
  destruct qs' as [|q0' qs0'].
  { by apply Permutation_nil_r in Hperm. }
  destruct (decide (ds = [])) as [->|Hds]; [done|].
  rewrite !(rerank_pairwise smax self sim) by done.
  do 2 f_equal. apply list_fmap_ext. intros j d _.
  eapply is_max_of_unique; [done| |by apply best_score_is_max..].
  by apply fmap_Permutation.
Qed.

(** Further variants never lower the score of a candidate. *)
Theorem rerank_more_variants (self : @evaluator emb score)
    (sim : emb → emb → score) (qs more ds : list emb) :
  max_order sle smax →
  pairwise_similarity sim (similarity_fct self) →
  1 ≤ length qs → 1 ≤ length ds →
  ∃ m m' : gmap string score,
    rerank smax self qs ds = Ok m ∧
    rerank smax self (qs ++ more) ds = Ok m' ∧
    ∀ (j : nat) v, m !! pretty j = Some v →
      ∃ v', m' !! pretty j = Some v' ∧ sle v v'.
Proof.
  intros Hord Hsim HR HC.
  destruct qs as [|q0 qs0]; [simpl in HR; lia|].
  assert (Hds : ds ≠ []) by (intros ->; simpl in HC; lia).
  eexists _, _. split; [by apply rerank_pairwise|].
  split; [rewrite <-app_comm_cons; by apply rerank_pairwise|].
  intros j v. rewrite !rerank_pairwise_lookup by done.
  destruct (ds !! j) as [d|]; [|done]. simpl. intros [= <-].
  eexists. split; [done|].
  destruct (best_score_is_max smax sle sim q0 qs0 d Hord) as [Hin _].
  destruct (best_score_is_max smax sle sim q0 (qs0 ++ more) d Hord) as [_ Hub].
  apply Hub. rewrite app_comm_cons, fmap_app. by apply elem_of_app; left.
Qed.

(** The score of a candidate does not depend on the candidates listed after
    it. *)
Theorem rerank_candidate_independent (self : @evaluator emb score)
    (sim : emb → emb → score) (qs ds more : list emb) :
  pairwise_similarity sim (similarity_fct self) →
  1 ≤ length qs → 1 ≤ length ds →
  ∃ m m' : gmap string score,
    rerank smax self qs ds = Ok m ∧
    rerank smax self qs (ds ++ more) = Ok m' ∧
    ∀ j, j < length ds → m' !! pretty j = m !! pretty j.
Proof.
  intros Hsim HR HC.
  destruct qs as [|q0 qs0]; [simpl in HR; lia|].
  assert (Hds : ds ≠ []) by (intros ->; simpl in HC; lia).
  assert (Hds' : ds ++ more ≠ []) by (destruct ds; [done|discriminate]).
  eexists _, _. split; [by apply rerank_pairwise|].
  split; [by apply rerank_pairwise|].
  intros j Hj. rewrite !rerank_pairwise_lookup by done.
  by rewrite lookup_app_l.
Qed.

(** The scorer does not check the shape of what the similarity function
    returns: a vector of any length is stored entry by entry. *)
Theorem rerank_trusts_similarity_shape (self : @evaluator emb score)
    (qs ds : list emb) (v : list score) :
  1 ≤ length qs → 1 ≤ length ds →
  similarity_fct self qs ds = T1 v →
  ∃ m : gmap string score,
    rerank smax self qs ds = Ok m ∧
    size m = length v ∧
    ∀ j : nat, m !! pretty j = v !! j.
Proof.
  intros HR HC Hv. unfold rerank.
  destruct qs; [simpl in HR; lia|]. destruct ds; [simpl in HC; lia|].
  cbn [length]. rewrite Hv. eexists. split; [done|].
  split; [apply dict_comp_size|].
  intros j. by rewrite dict_comp_lookup, option_fmap_id.
Qed.

End ScorerMore.

(** ** The batched strategy: alignment, success, failures *)

Lemma mapM_lookup {A B} (f : A → result B) (l : list A) (ys : list B) k x :
  mapM f l = Ok ys → l !! k = Some x →
  ∃ y, ys !! k = Some y ∧ f x = Ok y.
Proof.
  revert ys k. induction l as [|a l IH]; intros ys k; [done|].
  cbn [mapM]. intros (y & Hy & H)%rbind_Ok.
  apply rbind_Ok in H as (rest & Hrest & [= <-]).
  destruct k as [|k]; simpl.
  - intros [= <-]. by exists y.
  - intros Hk. by eapply IH.
Qed.

Lemma mapM_Ok {A B} (f : A → result B) (l : list A) :
  Forall (λ x, ∃ y, f x = Ok y) l → ∃ ys, mapM f l = Ok ys.
Proof.
  induction 1 as [|x l [y Hy] _ [ys Hys]]; [by eexists|].
  exists (y :: ys). cbn [mapM]. by rewrite Hy, Hys.
Qed.

Lemma query_texts_length (s : sample) :
  (∃ t, query s = PStr t) ∨ (∃ l, query s = PList l) →
  length (query_texts s) = num_subqueries s.
Proof.
  unfold query_texts, num_subqueries.
  intros [[t ->] | [l ->]]; [done|]. by rewrite length_fmap.
Qed.

Lemma uniform_query_texts_length (ss : list sample) :
  uniform_queries ss →
  Forall (λ s, length (query_texts s) = num_subqueries s) ss.
Proof.
  intros [Hall | Hall]; eapply Forall_impl; try exact Hall;
    intros s Hs; apply query_texts_length; eauto.
Qed.

Lemma all_query_flattened_lists (ss : list sample) :
  all_variant_lists ss →
  ∃ qs, all_query_flattened ss = Ok qs ∧
        PStr <$> qs = concat (query_texts <$> ss).
Proof.
  induction 1 as [|s ss [l Hl] _ (qs & Hqs & Heq)]; [by exists []|].
  exists (l ++ qs). cbn [all_query_flattened]. rewrite Hl, Hqs. simpl.
  split; [done|]. rewrite fmap_app, Heq.
  unfold query_texts at 2. by rewrite Hl.
Qed.

(** For a non-empty set of queries of one kind, the query encoder receives
    each sample's own texts, sample after sample. *)
Lemma batched_query_texts_uniform {emb score : Type}
    (self : @evaluator emb score) :
  samples self ≠ [] → uniform_queries (samples self) →
  batched_query_texts self = Ok (concat (query_texts <$> samples self)).
Proof.
  intros Hne Huni. unfold batched_query_texts.
  destruct (samples self) as [|s0 ss0] eqn:Hss; [done|].
  destruct Huni as [Hall | Hall].
  - pose proof Hall as Hall'. apply Forall_cons in Hall' as [[t0 Ht0] _].
    rewrite Ht0. f_equal. rewrite <-Hss in Hall. rewrite <-Hss. clear -Hall.
    induction Hall as [|s ss [t Ht] _ IH]; [done|].
    rewrite !fmap_cons. cbn [concat]. rewrite <-IH.
    unfold query_texts. by rewrite Ht.
  - pose proof Hall as Hall'. apply Forall_cons in Hall' as [[l0 Hl0] _].
    rewrite Hl0.
    destruct (all_query_flattened_lists _ Hall) as (qs & -> & Heq).
    simpl. by rewrite Heq.
Qed.

Section BatchedMore.

Context {emb score : Type}.
Variable smax : score → score → score.
Variable evaluate :
  gmap string (gmap string nat) → gmap string (gmap string score) → list nat →
  result (gmap string score * gmap string score *
          gmap string score * gmap string score).

(** Slicing the flattened embeddings by the running offsets gives every
    sample the embeddings of its own texts. *)
Lemma batched_scores_own (self : @evaluator emb score)
    (enc_q enc_c : pyval → emb) (ss : list sample) (pre_q pre_d : list emb) :
  Forall (λ s, length (query_texts s) = num_subqueries s) ss →
  batched_scores smax self
    (pre_q ++ (enc_q <$> concat (query_texts <$> ss)))
    (pre_d ++ (enc_c <$> (PStr <$> concat (candidates <$> ss))))
    (length pre_q) (length pre_d) ss
  = mapM (own_scores smax self enc_q enc_c) ss.
Proof.
  revert pre_q pre_d.
  induction ss as [|s ss IH]; intros pre_q pre_d Hall; [done|].
  apply Forall_cons in Hall as [Hs Hall].
  cbn [batched_scores mapM]. rewrite !fmap_cons. cbn [concat].
  rewrite !fmap_app.
  replace (num_subqueries s) with (length (enc_q <$> query_texts s))
    by by rewrite length_fmap.
  replace (length (candidates s))
    with (length (enc_c <$> (PStr <$> candidates s)))
    by by rewrite !length_fmap.
  rewrite !slice_here. fold (own_scores smax self enc_q enc_c s).
  destruct (own_scores smax self enc_q enc_c s) as [scores|e]; [|done].
  cbn [rbind].
  rewrite (assoc_L (++) pre_q), (assoc_L (++) pre_d), <-!length_app.
  by rewrite IH.
Qed.

(** The batched strategy on a non-empty set of queries of one kind, with a
    pointwise encoder: score every sample from its own embeddings, then file
    the results under the running query offsets. *)
Lemma batched_collections_uniform (self : @evaluator emb score)
    (m : @model emb) (enc_q enc_c : pyval → emb) :
  samples self ≠ [] → uniform_queries (samples self) →
  batched_pointwise_encoder m enc_q enc_c →
  batched_collections smax self m
  = (rs ←! mapM (own_scores smax self enc_q enc_c) (samples self);
     Ok {| query_idx := query_offset (samples self);
           docs_idx := doc_offset (samples self);
           b_results :=
             insert_all ∅ (zip (pretty <$> fake_qids 0 (samples self)) rs);
           b_qrels :=
             insert_all ∅ (zip (pretty <$> fake_qids 0 (samples self))
                               (batched_judgments <$> samples self)) |}).
Proof.
  intros Hne Huni ((fq & Hfq & Hpq) & (fc & Hfc & Hpc)).
  unfold batched_collections. rewrite Hfq, Hfc. cbn [rbind].
  rewrite batched_query_texts_uniform by done. cbn [rbind].
  rewrite batched_loop_eq.
  cbn [batched_init query_idx docs_idx b_results b_qrels].
  unfold all_docs. rewrite Hpq, Hpc.
  pose proof (batched_scores_own self enc_q enc_c (samples self) [] []
                (uniform_query_texts_length _ Huni)) as Hown.
  simpl in Hown. by rewrite Hown.
Qed.

(** With queries of one kind and an encoder that embeds each text on its
    own, the Score Map filed for a sample is the scorer's result on the
    embeddings of that sample's own query texts and candidates: the offsets
    re-partition the flattened embeddings exactly. *)
Theorem batched_scores_from_own_embeddings (self : @evaluator emb score)
    (m : @model emb) (enc_q enc_c : pyval → emb) (st : batched_state) :
  samples self ≠ [] → uniform_queries (samples self) →
  batched_pointwise_encoder m enc_q enc_c →
  batched_collections smax self m = Ok st →
  ∀ k s id, samples self !! k = Some s →
    fake_qids 0 (samples self) !! k = Some id →
    ∃ scores, b_results st !! pretty id = Some scores ∧
              own_scores smax self enc_q enc_c s = Ok scores.
Proof.
  intros Hne Huni Henc Hrun k s id Hs Hid.
  pose proof Hrun as (qe & de & rs' & Hrs' & _)%batched_collections_Ok.
  pose proof (batched_scores_variants _ _ _ _ _ _ _ _ Hrs') as Hvar.
  rewrite (batched_collections_uniform self m enc_q enc_c) in Hrun by done.
  apply rbind_Ok in Hrun as (rs & Hrs & [= <-]). cbn [b_results].
  destruct (mapM_lookup _ _ _ k s Hrs Hs) as (scores & Hk & Hown).
  exists scores. split; [|done].
  assert (Hlen : length rs = length (samples self)).
  { clear -Hrs. revert rs Hrs.
    induction (samples self) as [|a l IH]; intros rs; cbn [mapM].
    - by intros [= <-].
    - intros (y & _ & H)%rbind_Ok.
      apply rbind_Ok in H as (rest & Hrest & [= <-]).
      simpl. f_equal. by apply IH. }
  rewrite insert_all_keyed.
  - apply (keyed_lookup _ _ k); try done.
    + by apply pretty_ids_NoDup, fake_qids_NoDup.
    + by rewrite length_fmap, fake_qids_length.
    + by rewrite list_lookup_fmap, Hid.
  - by apply pretty_ids_NoDup, fake_qids_NoDup.
  - by rewrite length_fmap, fake_qids_length.
Qed.

Lemma rerank_pairwise_Ok (self : @evaluator emb score)
    (sim : emb → emb → score) (qs ds : list emb) :
  pairwise_similarity sim (similarity_fct self) → 1 ≤ length qs →
  ∃ scores, rerank smax self qs ds = Ok scores.
Proof.
  intros Hsim HR. destruct qs as [|q0 qs]; [simpl in HR; lia|].
  destruct (decide (ds = [])) as [->|Hds]; [by eexists|].
  eexists. by apply rerank_pairwise.
Qed.

(** On well-formed input the batched strategy raises nothing of its own: a
    non-empty set of queries of one kind with at least one variant each, a
    pointwise encoder and a pairwise similarity function.  What it returns
    or raises is then what the engine returns or raises on the
    collections. *)
Theorem batched_succeeds (self : @evaluator emb score) (m : @model emb)
    (enc_q enc_c : pyval → emb) (sim : emb → emb → score) :
  samples self ≠ [] → uniform_queries (samples self) →
  Forall (λ s, 1 ≤ num_subqueries s) (samples self) →
  batched_pointwise_encoder m enc_q enc_c →
  pairwise_similarity sim (similarity_fct self) →
  ∃ st, batched_collections smax self m = Ok st ∧
        compute_metrics_batched smax evaluate self m
        = evaluate_and_merge evaluate self (b_results st) (b_qrels st).
Proof.
  intros Hne Huni Hvar Henc Hsim.
  assert (Hrun : ∃ st, batched_collections smax self m = Ok st).
  { rewrite (batched_collections_uniform self m enc_q enc_c) by done.
    destruct (mapM_Ok (own_scores smax self enc_q enc_c) (samples self))
      as [rs ->]; [|by eexists].
    pose proof (uniform_query_texts_length _ Huni) as Hlen.
    rewrite Forall_forall in Hlen, Hvar. apply Forall_forall. intros s Hs.
    apply (rerank_pairwise_Ok self sim); [done|].
    rewrite length_fmap, Hlen by done. by apply Hvar. }
  destruct Hrun as [st Hst]. exists st. split; [done|].
  unfold compute_metrics_batched. by rewrite Hst.
Qed.

(** A first sample whose query is neither a string nor a list stops the
    batched strategy with [ValueError] before anything is encoded. *)
Theorem batched_rejects_unsupported_query (self : @evaluator emb score)
    (m : @model emb) (s0 : sample) (ss : list sample) (ty : string) fq fc :
  samples self = s0 :: ss → query s0 = POther ty →
  batched_encode_queries_func m = Ok fq →
  batched_encode_corpus_func m = Ok fc →
  compute_metrics_batched smax evaluate self m
  = Raise (ValueError
             ("Query must be a string or a list of strings but is " +:+ ty)) ∧
  InvalidInput
    (ValueError ("Query must be a string or a list of strings but is " +:+ ty)).
Proof.
  intros Hss Hq Hfq Hfc. split; [|by eexists].
  unfold compute_metrics_batched, batched_collections, batched_query_texts.
  by rewrite Hfq, Hfc, Hss, Hq.
Qed.

(** A sample without any query variant (an empty list) makes the batched
    strategy fail: it never returns metrics. *)
Theorem batched_fails_on_empty_variant_list (self : @evaluator emb score)
    (m : @model emb) (s : sample) :
  s ∈ samples self → query s = PList [] →
  ∃ e, compute_metrics_batched smax evaluate self m = Raise e.
Proof.
  intros Hin Hq. unfold compute_metrics_batched.
  destruct (batched_collections smax self m) as [st|e] eqn:Hrun;
    [|by eexists].
  apply batched_collections_Ok in Hrun as (qe & de & rs & Hrs & _).
  apply batched_scores_variants in Hrs.
  rewrite Forall_forall in Hrs. specialize (Hrs s Hin).
  unfold num_subqueries in Hrs. rewrite Hq in Hrs. simpl in Hrs. lia.
Qed.

End BatchedMore.

(** ** The individual strategy: what each sample is scored with *)

Section IndividualMore.

Context {emb score : Type}.
Variable smax : score → score → score.
Variable evaluate :
  gmap string (gmap string nat) → gmap string (gmap string score) → list nat →
  result (gmap string score * gmap string score *
          gmap string score * gmap string score).

(** The k-th Score Map is the scorer's result on the local variables as
    they stand after the k-th sample. *)
Lemma individual_scores_lookup (self : @evaluator emb score) (m : @model emb)
    (locals : option (list emb * list emb)) (ss : list sample)
    (r : list (gmap string score) * option (list emb * list emb))
    (k : nat) (s : sample) :
  individual_scores smax self m locals ss = Ok r → ss !! k = Some s →
  ∃ qe de scores,
    locals_after self m locals (take (S k) ss) = Some (qe, de) ∧
    rerank smax self qe de = Ok scores ∧
    r.1 !! k = Some scores.
Proof.
  revert locals r k. induction ss as [|s0 ss IH]; intros locals r k; [done|].
  cbn [individual_scores].
  destruct (individual_locals self m locals s0) as [[qe0 de0]|] eqn:Hloc;
    [|done].
  intros (scores0 & Hsc & H)%rbind_Ok.
  apply rbind_Ok in H as (rest & Hrest & [= <-]).
  destruct k as [|k]; simpl.
  - intros _. exists qe0, de0, scores0.
    unfold locals_after. simpl. by rewrite Hloc.
  - intros Hk. destruct (IH _ _ _ Hrest Hk) as (qe & de & sc & Hl & Hr & Hk').
    exists qe, de, sc. split; [|done].
    unfold locals_after in *. simpl. by rewrite Hloc.
Qed.

Lemma individual_results_lookup (self : @evaluator emb score) (m : @model emb)
    (st : individual_state) (k : nat) (s : sample) :
  individual_collections smax self m = Ok st →
  samples self !! k = Some s →
  ∃ qe de scores,
    locals_after self m None (take (S k) (samples self)) = Some (qe, de) ∧
    rerank smax self qe de = Ok scores ∧
    i_results st !! pretty k = Some scores.
Proof.
  intros (r & Hr & -> & _)%individual_collections_Ok Hs.
  destruct (individual_scores_lookup _ _ _ _ _ _ _ Hr Hs)
    as (qe & de & scores & Hl & Hsc & Hk).
  exists qe, de, scores. split; [done|]. split; [done|].
  apply (keyed_lookup _ _ k); try done.
  - apply pretty_ids_NoDup, NoDup_seq.
  - rewrite length_fmap, length_seq.
    symmetry. by eapply individual_scores_length.
  - rewrite list_lookup_fmap, lookup_seq_lt; [done|].
    by eapply lookup_lt_Some.
Qed.

(** A sample whose query is a string is scored with the encodings of its
    own query and its own candidates, whatever the other samples are. *)
Theorem individual_string_sample_scores (self : @evaluator emb score)
    (m : @model emb) (st : individual_state) (k : nat) (s : sample)
    (t : string) :
  individual_collections smax self m = Ok st →
  samples self !! k = Some s → query s = PStr t →
  ∃ scores,
    i_results st !! pretty k = Some scores ∧
    rerank smax self
      (individual_encode_queries_func m [PStr t] (batch_size self))
      (individual_encode_corpus_func m (PStr <$> candidates s)
                                     (batch_size self))
    = Ok scores.
Proof.
  intros Hrun Hs Hq.
  destruct (individual_results_lookup _ _ _ _ _ Hrun Hs)
    as (qe & de & scores & Hl & Hsc & Hk).
  exists scores. split; [done|].
  rewrite (take_S_r _ _ _ Hs) in Hl. unfold locals_after in Hl.
  rewrite foldl_app in Hl. simpl in Hl.
  unfold individual_locals in Hl. rewrite Hq in Hl.
  by injection Hl as <- <-.
Qed.

(** A sample whose query is not a string is filed with the Score Map of the
    sample before it: the embeddings of that sample are scored again. *)
Theorem individual_non_string_reuses_previous (self : @evaluator emb score)
    (m : @model emb) (st : individual_state) (k : nat) (s : sample) :
  individual_collections smax self m = Ok st →
  samples self !! S k = Some s → (∀ t, query s ≠ PStr t) →
  i_results st !! pretty (S k) = i_results st !! pretty k.
Proof.
  intros Hrun Hs Hq.
  destruct (lookup_lt_is_Some_2 (samples self) k) as [s0 Hs0].
  { apply lookup_lt_Some in Hs. lia. }
  destruct (individual_results_lookup _ _ _ _ _ Hrun Hs)
    as (qe & de & scores & Hl & Hsc & Hk).
  destruct (individual_results_lookup _ _ _ _ _ Hrun Hs0)
    as (qe0 & de0 & scores0 & Hl0 & Hsc0 & Hk0).
  rewrite Hk, Hk0. f_equal.
  rewrite (take_S_r _ _ _ Hs) in Hl. unfold locals_after in Hl, Hl0.
  rewrite foldl_app, Hl0 in Hl. simpl in Hl.
  unfold individual_locals in Hl.
  destruct (query s) as [t| |] eqn:Hqs; [by destruct (Hq t)| |];
    injection Hl as <- <-; congruence.
Qed.

(** A first sample whose query is not a string stops the individual
    strategy with [UnboundLocalError]: [query_emb] was never assigned. *)
Theorem individual_first_non_string (self : @evaluator emb score)
    (m : @model emb) (s : sample) (ss : list sample) :
  samples self = s :: ss → (∀ t, query s ≠ PStr t) →
  compute_metrics_individual smax evaluate self m = Raise UnboundLocalError.
Proof.
  intros Hss Hq.
  unfold compute_metrics_individual, individual_collections. rewrite Hss.
  unfold enumerate. cbn [imap foldlM]. rewrite individual_step_unfold.
  unfold individual_locals. cbn [individual_init i_locals].
  by destruct (query s) as [t| |]; [destruct (Hq t)| |].
Qed.

(** When the individual loop completes, Results and Qrels are keyed by the
    sample positions ["0"] .. ["n-1"], one key per sample, whatever the
    queries are. *)
Theorem individual_identifiers (self : @evaluator emb score)
    (m : @model emb) (st : individual_state) :
  individual_collections smax self m = Ok st →
  dom (i_results st) = index_keys (length (samples self)) ∧
  dom (i_qrels st) = index_keys (length (samples self)) ∧
  size (i_results st) = length (samples self) ∧
  size (i_qrels st) = length (samples self).
Proof.
  intros (r & Hr & -> & ->)%individual_collections_Ok.
  pose proof (individual_scores_length _ _ _ _ _ _ Hr) as Hlen.
  assert (Hnd : NoDup (pretty <$> seq 0 (length (samples self))))
    by apply pretty_ids_NoDup, NoDup_seq.
  rewrite !keyed_dom, !keyed_size;
    try done; by rewrite !length_fmap, length_seq.
Qed.

(** With string queries only, an encoder that embeds each text on its own
    and a pairwise similarity function, the individual strategy raises
    nothing of its own, also on the empty sample set. *)
Theorem individual_succeeds (self : @evaluator emb score) (m : @model emb)
    (enc_q : pyval → emb) (sim : emb → emb → score) :
  all_single_string (samples self) →
  pointwise (individual_encode_queries_func m) enc_q →
  pairwise_similarity sim (similarity_fct self) →
  ∃ st, individual_collections smax self m = Ok st ∧
        compute_metrics_individual smax evaluate self m
        = evaluate_and_merge evaluate self (i_results st) (i_qrels st).
Proof.
  intros Hall Hq Hsim.
  assert (Hrun : ∃ st, individual_collections smax self m = Ok st).
  { unfold individual_collections, enumerate.
    rewrite (imap_ext _ (λ i x, (0 + i, x)) (samples self)) by done.
    rewrite individual_loop_eq.
    assert (Hsc : ∀ locals, ∃ r,
               individual_scores smax self m locals (samples self) = Ok r).
    { induction Hall as [|s ss [t Ht] _ IH]; intros locals; [by eexists|].
      cbn [individual_scores]. unfold individual_locals. rewrite Ht, Hq.
      destruct (rerank_pairwise_Ok smax self sim (enc_q <$> [PStr t])
                  (individual_encode_corpus_func m (PStr <$> candidates s)
                     (batch_size self)) Hsim) as [scores ->]; [simpl; lia|].
      cbn [rbind]. destruct (IH (Some (enc_q <$> [PStr t],
        individual_encode_corpus_func m (PStr <$> candidates s)
          (batch_size self)))) as [r ->].
      by eexists. }
    cbn [individual_init i_locals].
    destruct (Hsc None) as [r ->]. by eexists. }
  destruct Hrun as [st Hst]. exists st. split; [done|].
  unfold compute_metrics_individual. by rewrite Hst.
Qed.

End IndividualMore.

(** ** Merging the four metric groups *)

Section Merge.

Context {emb score : Type}.
Variable evaluate :
  gmap string (gmap string nat) → gmap string (gmap string score) → list nat →
  result (gmap string score * gmap string score *
          gmap string score * gmap string score).

(** The merged mapping has the keys of all four groups; under a key that
    several groups share, the value of the last of ndcg, map, recall,
    precision that has it is kept. *)
Theorem merged_metrics (self : @evaluator emb score)
    (results : gmap string (gmap string score))
    (qrels : gmap string (gmap string nat))
    (ndcg _map recall precision : gmap string score) :
  evaluate qrels results (k_values self) = Ok (ndcg, _map, recall, precision) →
  ∃ merged : gmap string score,
    evaluate_and_merge evaluate self results qrels = Ok merged ∧
    dom merged = dom ndcg ∪ dom _map ∪ dom recall ∪ dom precision ∧
    (∀ k, merged !! k
          = precision !! k ∪ (recall !! k ∪ (_map !! k ∪ ndcg !! k))) ∧
    precision ⊆ merged ∧
    (∀ k v, ndcg !! k = Some v → _map !! k = None → recall !! k = None →
            precision !! k = None → merged !! k = Some v).
Proof.
  intros Hev. unfold evaluate_and_merge. rewrite Hev. cbn [rbind].
  eexists. split; [done|]. unfold dict_merge.
  split; [|split; [|split]].
  - rewrite !dom_union_L. apply set_eq. intros k.
    rewrite !elem_of_union. tauto.
  - intros k. by rewrite !lookup_union.
  - apply map_union_subseteq_l.
  - intros k v H1 H2 H3 H4. by rewrite !lookup_union, H1, H2, H3, H4.
Qed.

End Merge.

(** ** The task driver *)

Section DriverFacts.

Context {emb score : Type}.
Variable load_data : task → result task.
Variable run : list sample → @model emb → result (gmap string score).

(** The loop over the languages, from any accumulated dictionary. *)
Lemma for_languages_Done
    (dataset : gmap string (gmap string (list sample))) (split : string)
    (m : @model emb) (langs : list string)
    (acc s : gmap string (gmap string score)) :
  for_languages run dataset split m acc langs = Done s →
  dom s = dom acc ∪ list_to_set langs ∧
  (∀ lang, lang ∈ langs →
     ∃ r, s !! lang = Some r ∧
          language_scores run dataset split m lang = Done r) ∧
  (∀ k, k ∉ langs → s !! k = acc !! k).
Proof.
  revert acc. induction langs as [|lang langs IH]; intros acc.
  - simpl. intros [= <-]. split; [by rewrite (right_id_L ∅ (∪))|].
    split; [|done]. intros lang Hin. by apply elem_of_nil in Hin.
  - cbn [for_languages].
    destruct (language_scores run dataset split m lang) as [r|e] eqn:Hl;
      [|done].
    intros (Hdom & Hin & Hout)%IH.
    split.
    { rewrite Hdom, dom_insert_L. simpl.
      rewrite (comm_L (∪) {[lang]} (dom acc)). by rewrite (assoc_L (∪)). }
    split.
    + intros l [-> | Hl']%elem_of_cons; [|by apply Hin].
      destruct (decide (lang ∈ langs)) as [Hd|Hd]; [by apply Hin|].
      exists r. by rewrite Hout, lookup_insert_eq.
    + intros k [Hk1 Hk2]%not_elem_of_cons.
      by rewrite Hout, lookup_insert_ne.
Qed.

Lemma for_languages_all_Done
    (dataset : gmap string (gmap string (list sample))) (split : string)
    (m : @model emb) (langs : list string)
    (acc : gmap string (gmap string score)) :
  Forall (λ lang, ∃ r, language_scores run dataset split m lang = Done r)
         langs →
  ∃ s, for_languages run dataset split m acc langs = Done s.
Proof.
  intros Hall. revert acc.
  induction Hall as [|lang langs [r Hr] _ IH]; intros acc; [by eexists|].
  cbn [for_languages]. rewrite Hr. apply IH.
Qed.

Lemma for_languages_first_failure
    (dataset : gmap string (gmap string (list sample))) (split : string)
    (m : @model emb) (pre post : list string) (lang : string)
    (acc : gmap string (gmap string score)) (e : driver_exn) :
  Forall (λ l, ∃ r, language_scores run dataset split m l = Done r) pre →
  language_scores run dataset split m lang = Failed e →
  for_languages run dataset split m acc (pre ++ lang :: post) = Failed e.
Proof.
  intros Hpre Hl. revert acc.
  induction Hpre as [|l pre [r Hr] _ IH]; intros acc.
  - simpl. by rewrite Hl.
  - cbn [app for_languages]. rewrite Hr. apply IH.
Qed.

(** When the multilingual driver returns, its result has exactly one entry
    per language of [self.langs], and the entry of a language is what the
    evaluator returned on that language's own split: languages do not
    influence each other. *)
Theorem driver_per_language_scores (self : task) (m : @model emb)
    (split : string) (langs : list string)
    (dataset : gmap string (gmap string (list sample)))
    (self' : task) (sc : scores) :
  data_loaded self = true →
  data self = Multilingual langs dataset →
  evaluate_task load_data run self m split = (self', Done sc) →
  self' = self ∧
  ∃ s, sc = PerLanguage s ∧
       dom s = list_to_set langs ∧
       ∀ lang, lang ∈ langs →
         ∃ splits data_split r,
           dataset !! lang = Some splits ∧
           splits !! split = Some data_split ∧
           run data_split m = Ok r ∧
           s !! lang = Some r.
Proof.
  intros Hloaded Hdata. unfold evaluate_task, evaluate_loaded.
  rewrite Hloaded, Hdata.
  destruct (for_languages run dataset split m ∅ langs) as [s|e] eqn:Hfor;
    [|done].
  intros [= <- <-]. split; [done|]. exists s. split; [done|].
  apply for_languages_Done in Hfor as (Hdom & Hin & _).
  split; [by rewrite Hdom, dom_empty_L, (left_id_L ∅ (∪))|].
  intros lang (r & Hs & Hr)%Hin. unfold language_scores in Hr.
  destruct (dataset !! lang) as [splits|] eqn:Hl; [|done].
  destruct (splits !! split) as [data_split|] eqn:Hsp; [|done].
  destruct (run data_split m) as [r'|e] eqn:Hrun; [|done].
  injection Hr as <-. by exists splits, data_split, r'.
Qed.

(** The driver stops at the first language that fails and returns no
    scores at all: [KeyError] for a language or a split that the dataset
    does not have, or the exception of the evaluator. *)
Theorem driver_first_failure (self : task) (m : @model emb)
    (split : string) (pre post : list string) (lang : string)
    (dataset : gmap string (gmap string (list sample))) :
  data_loaded self = true →
  data self = Multilingual (pre ++ lang :: post) dataset →
  Forall (λ l, ∃ r, language_scores run dataset split m l = Done r) pre →
  (dataset !! lang = None →
   evaluate_task load_data run self m split = (self, Failed (KeyError lang))) ∧
  (∀ splits, dataset !! lang = Some splits → splits !! split = None →
   evaluate_task load_data run self m split
   = (self, Failed (KeyError split))) ∧
  (∀ splits data_split e,
     dataset !! lang = Some splits → splits !! split = Some data_split →
     run data_split m = Raise e →
     evaluate_task load_data run self m split = (self, Failed (Raised e))).
Proof.
  intros Hloaded Hdata Hpre.
  assert (Hfail : ∀ e, language_scores run dataset split m lang = Failed e →
            evaluate_task load_data run self m split = (self, Failed e)).
  { intros e He. unfold evaluate_task, evaluate_loaded.
    rewrite Hloaded, Hdata.
    by rewrite (for_languages_first_failure _ _ _ _ _ _ _ e Hpre He). }
  split; [|split].
  - intros Hl. apply Hfail. unfold language_scores. by rewrite Hl.
  - intros splits Hl Hs. apply Hfail. unfold language_scores.
    by rewrite Hl, Hs.
  - intros splits data_split e Hl Hs Hr. apply Hfail.
    unfold language_scores. by rewrite Hl, Hs, Hr.
Qed.

(** The scores do not depend on the order in which [self.langs] lists the
    languages. *)
Theorem driver_language_order (m : @model emb) (split : string)
    (langs langs' : list string)
    (dataset : gmap string (gmap string (list sample))) (sc : scores) :
  langs ≡ₚ langs' →
  evaluate_loaded run {| data_loaded := true;
                         data := Multilingual langs dataset |} m split
  = Done sc →
  evaluate_loaded run {| data_loaded := true;
                         data := Multilingual langs' dataset |} m split
  = Done sc.
Proof.
  intros Hperm. unfold evaluate_loaded. cbn [data].
  destruct (for_languages run dataset split m ∅ langs) as [s|e] eqn:Hfor;
    [|done].
  intros [= <-].
  pose proof Hfor as (Hdom & Hin & _)%for_languages_Done.
  destruct (for_languages_all_Done dataset split m langs' ∅) as [s' Hfor'].
  { apply Forall_forall. intros lang Hl. rewrite <-Hperm in Hl.
    destruct (Hin lang Hl) as (r & _ & Hr). by exists r. }
  rewrite Hfor'. do 2 f_equal.
  pose proof Hfor' as (Hdom' & Hin' & _)%for_languages_Done.
  apply map_eq. intros k.
  destruct (decide (k ∈ langs)) as [Hk|Hk].
  - destruct (Hin k Hk) as (r & -> & Hr).
    rewrite Hperm in Hk. destruct (Hin' k Hk) as (r' & -> & Hr').
    congruence.
  - assert (s !! k = None) as ->.
    { apply (not_elem_of_dom s k).
      by rewrite Hdom, dom_empty_L, (left_id_L ∅ (∪)), elem_of_list_to_set. }
    assert (s' !! k = None) as ->; [|done].
    apply (not_elem_of_dom s' k).
    rewrite Hdom', dom_empty_L, (left_id_L ∅ (∪)), elem_of_list_to_set.
    by rewrite <-Hperm.
Qed.

(** Once the data is loaded, [evaluate] does not load it again: a second
    call on the task the first call left behind returns the same result,
    whatever [load_data] would do. *)
Theorem driver_does_not_reload (load_data' : task → result task)
    (self : task) (m : @model emb) (split : string) :
  data_loaded (evaluate_task load_data run self m split).1 = true →
  evaluate_task load_data' run
    (evaluate_task load_data run self m split).1 m split
  = evaluate_task load_data run self m split.
Proof.
  unfold evaluate_task.
  destruct (data_loaded self) eqn:Hl; cbn [fst].
  - intros _. by rewrite Hl.
  - destruct (load_data self) as [self'|e]; cbn [fst].
    + intros Hl'. by rewrite Hl'.
    + intros Hl'. congruence.
Qed.

(** A failing [load_data] is all that happens: its exception is raised and
    no evaluator runs. *)
Theorem driver_load_failure (self : task) (m : @model emb) (split : string)
    (e : exn) (run' : list sample → @model emb → result (gmap string score)) :
  data_loaded self = false → load_data self = Raise e →
  evaluate_task load_data run self m split = (self, Failed (Raised e)) ∧
  evaluate_task load_data run' self m split
  = evaluate_task load_data run self m split.
Proof.
  intros Hl He. unfold evaluate_task. by rewrite Hl, He.
Qed.

End DriverFacts.

(** ** The further properties at concrete inputs *)

Lemma Z_le_antisym : ∀ a b : Z, (a ≤ b)%Z → (b ≤ a)%Z → a = b.
Proof. intros. lia. Qed.

Lemma example_batched_encoder :
  batched_pointwise_encoder Example.generic_model Example.embed Example.embed.
Proof. split; by exists Example.encode_texts. Qed.

Lemma rerank_variant_order_witness :
  max_order Z.le Z.max ∧
  (∀ a b : Z, (a ≤ b)%Z → (b ≤ a)%Z → a = b) ∧
  pairwise_similarity Example.closeness (similarity_fct Example.strings_run) ∧
  [3%Z; 6%Z] ≡ₚ [6%Z; 3%Z] ∧
  rerank Z.max Example.strings_run [3%Z; 6%Z] [8%Z; 7%Z; 2%Z]
  = rerank Z.max Example.strings_run [6%Z; 3%Z] [8%Z; 7%Z; 2%Z].
Proof.
  assert (Hperm : [3%Z; 6%Z] ≡ₚ [6%Z; 3%Z]) by apply Permutation_swap.
  split; [apply Z_max_order|]. split; [apply Z_le_antisym|].
  split; [apply example_similarity_pairwise|]. split; [exact Hperm|].
  apply (rerank_variant_order Z.max Z.le Example.strings_run
           Example.closeness [3%Z; 6%Z] [6%Z; 3%Z] [8%Z; 7%Z; 2%Z]
           Z_max_order Z_le_antisym example_similarity_pairwise Hperm).
Defined.

Lemma rerank_more_variants_witness :
  max_order Z.le Z.max ∧
  pairwise_similarity Example.closeness (similarity_fct Example.strings_run) ∧
  1 ≤ length [3%Z] ∧ 1 ≤ length [8%Z; 7%Z; 2%Z] ∧
  ∃ m m' : gmap string Z,
    rerank Z.max Example.strings_run [3%Z] [8%Z; 7%Z; 2%Z] = Ok m ∧
    rerank Z.max Example.strings_run ([3%Z] ++ [6%Z]) [8%Z; 7%Z; 2%Z] = Ok m' ∧
    ∀ (j : nat) v, m !! pretty j = Some v →
      ∃ v', m' !! pretty j = Some v' ∧ (v ≤ v')%Z.
Proof.
  split; [apply Z_max_order|].
  split; [apply example_similarity_pairwise|].
  split; [simpl; lia|]. split; [simpl; lia|].
  apply (rerank_more_variants Z.max Z.le Example.strings_run
           Example.closeness [3%Z] [6%Z] [8%Z; 7%Z; 2%Z]
           Z_max_order example_similarity_pairwise); simpl; lia.
Defined.

Lemma rerank_candidate_independent_witness :
  pairwise_similarity Example.closeness (similarity_fct Example.strings_run) ∧
  1 ≤ length [3%Z; 6%Z] ∧ 1 ≤ length [8%Z; 7%Z] ∧
  ∃ m m' : gmap string Z,
    rerank Z.max Example.strings_run [3%Z; 6%Z] [8%Z; 7%Z] = Ok m ∧
    rerank Z.max Example.strings_run [3%Z; 6%Z] ([8%Z; 7%Z] ++ [2%Z]) = Ok m' ∧
    ∀ j, j < length [8%Z; 7%Z] → m' !! pretty j = m !! pretty j.
Proof.
  split; [apply example_similarity_pairwise|].
  split; [simpl; lia|]. split; [simpl; lia|].
  apply (rerank_candidate_independent Z.max Example.strings_run
           Example.closeness [3%Z; 6%Z] [8%Z; 7%Z] [2%Z]
           example_similarity_pairwise); simpl; lia.
Defined.

Lemma rerank_trusts_similarity_shape_witness :
  1 ≤ length [3%Z] ∧ 1 ≤ length [8%Z; 7%Z] ∧
  similarity_fct MoreExamples.three_scores_run [3%Z] [8%Z; 7%Z]
  = T1 [1%Z; 2%Z; 3%Z] ∧
  ∃ m : gmap string Z,
    rerank Z.max MoreExamples.three_scores_run [3%Z] [8%Z; 7%Z] = Ok m ∧
    size m = 3.
Proof.
  split; [simpl; lia|]. split; [simpl; lia|]. split; [reflexivity|].
  destruct (rerank_trusts_similarity_shape Z.max MoreExamples.three_scores_run
              [3%Z] [8%Z; 7%Z] [1%Z; 2%Z; 3%Z]) as (m & Hm & Hsize & _);
    [simpl; lia|simpl; lia|reflexivity|].
  exists m. split; [exact Hm|exact Hsize].
Defined.

Lemma variants_run_uniform : uniform_queries (samples Example.variants_run).
Proof.
  right. change (samples Example.variants_run)
    with [Example.variants_sample; Example.paws_sample].
  repeat (apply Forall_cons_2; [by eexists|]). apply Forall_nil_2.
Qed.

Lemma variants_run_variants :
  Forall (λ s, 1 ≤ num_subqueries s) (samples Example.variants_run).
Proof.
  change (samples Example.variants_run)
    with [Example.variants_sample; Example.paws_sample].
  repeat (apply Forall_cons_2; [vm_compute; lia|]). apply Forall_nil_2.
Qed.

Lemma batched_scores_from_own_embeddings_witness :
  ∃ (st : batched_state) (scores : gmap string Z),
    samples Example.variants_run ≠ [] ∧
    uniform_queries (samples Example.variants_run) ∧
    batched_pointwise_encoder Example.generic_model Example.embed
      Example.embed ∧
    batched_collections Z.max Example.variants_run Example.generic_model
    = Ok st ∧
    b_results st !! "5" = Some scores ∧
    own_scores Z.max Example.variants_run Example.embed Example.embed
      Example.paws_sample = Ok scores.
Proof.
  assert (Hne : samples Example.variants_run ≠ []) by (simpl; discriminate).
  destruct (batched_collections Z.max Example.variants_run
              Example.generic_model) as [st|e] eqn:Hrun;
    [|by vm_compute in Hrun].
  destruct (batched_scores_from_own_embeddings Z.max Example.variants_run
              Example.generic_model Example.embed Example.embed st Hne
              variants_run_uniform example_batched_encoder Hrun
              1 Example.paws_sample 5) as (scores & Hk & Hown);
    [reflexivity|reflexivity|].
  exists st, scores. split; [exact Hne|].
  split; [apply variants_run_uniform|].
  split; [apply example_batched_encoder|].
  split; [reflexivity|]. split; [exact Hk|exact Hown].
Defined.

Lemma batched_succeeds_witness :
  samples Example.variants_run ≠ [] ∧
  uniform_queries (samples Example.variants_run) ∧
  Forall (λ s, 1 ≤ num_subqueries s) (samples Example.variants_run) ∧
  batched_pointwise_encoder Example.generic_model Example.embed
    Example.embed ∧
  pairwise_similarity Example.closeness
    (similarity_fct Example.variants_run) ∧
  ∃ st, batched_collections Z.max Example.variants_run Example.generic_model
        = Ok st ∧
        compute_metrics_batched Z.max Example.engine Example.variants_run
          Example.generic_model
        = evaluate_and_merge Example.engine Example.variants_run
            (b_results st) (b_qrels st).
Proof.
  assert (Hne : samples Example.variants_run ≠ []) by (simpl; discriminate).
  split; [exact Hne|]. split; [apply variants_run_uniform|].
  split; [apply variants_run_variants|].
  split; [apply example_batched_encoder|].
  split; [apply example_similarity_pairwise|].
  apply (batched_succeeds Z.max Example.engine Example.variants_run
           Example.generic_model Example.embed Example.embed
           Example.closeness Hne variants_run_uniform variants_run_variants
           example_batched_encoder example_similarity_pairwise).
Defined.

Lemma batched_rejects_unsupported_query_witness :
  samples MoreExamples.unsupported_run
  = [MoreExamples.none_sample; Example.cat_sample] ∧
  query MoreExamples.none_sample = POther "<class 'NoneType'>" ∧
  compute_metrics_batched Z.max Example.engine MoreExamples.unsupported_run
    Example.generic_model
  = Raise (ValueError
      "Query must be a string or a list of strings but is <class 'NoneType'>").
Proof.
  split; [reflexivity|]. split; [reflexivity|].
  apply (batched_rejects_unsupported_query Z.max Example.engine
           MoreExamples.unsupported_run Example.generic_model
           MoreExamples.none_sample [Example.cat_sample]
           "<class 'NoneType'>" Example.encode_texts Example.encode_texts);
    reflexivity.
Defined.

Lemma batched_fails_on_empty_variant_list_witness :
  MoreExamples.no_variants_sample ∈ samples MoreExamples.no_variants_run ∧
  query MoreExamples.no_variants_sample = PList [] ∧
  ∃ e, compute_metrics_batched Z.max Example.engine
         MoreExamples.no_variants_run Example.generic_model = Raise e.
Proof.
  assert (Hin : MoreExamples.no_variants_sample
                ∈ samples MoreExamples.no_variants_run).
  { change (samples MoreExamples.no_variants_run)
      with [Example.variants_sample; MoreExamples.no_variants_sample].
    apply list_elem_of_further, list_elem_of_here. }
  split; [exact Hin|]. split; [reflexivity|].
  apply (batched_fails_on_empty_variant_list Z.max Example.engine
           MoreExamples.no_variants_run Example.generic_model
           MoreExamples.no_variants_sample Hin).
  reflexivity.
Defined.

Lemma batched_empty_samples_witness :
  samples Example.empty_run = [] ∧
  batched_encode_queries_func Example.generic_model
  = Ok Example.encode_texts ∧
  batched_encode_corpus_func Example.generic_model
  = Ok Example.encode_texts ∧
  compute_metrics_batched Z.max Example.engine Example.empty_run
    Example.generic_model = Raise IndexError.
Proof.
  split; [reflexivity|]. split; [reflexivity|]. split; [reflexivity|].
  apply (batched_empty_samples Z.max Example.engine Example.empty_run
           Example.generic_model Example.encode_texts Example.encode_texts);
    reflexivity.
Defined.

Lemma individual_empty_samples_witness :
  samples Example.empty_run = [] ∧
  compute_metrics_individual Z.max Example.engine Example.empty_run
    Example.generic_model
  = evaluate_and_merge Example.engine Example.empty_run ∅ ∅.
Proof.
  split; [reflexivity|].
  apply (individual_empty_samples Z.max Example.engine Example.empty_run
           Example.generic_model).
  reflexivity.
Defined.

Lemma individual_string_sample_scores_witness :
  ∃ (st : individual_state) (scores : gmap string Z),
    individual_collections Z.max Example.mixed_run Example.generic_model
    = Ok st ∧
    samples Example.mixed_run !! 0 = Some Example.cat_sample ∧
    query Example.cat_sample = PStr "cat" ∧
    i_results st !! "0" = Some scores ∧
    rerank Z.max Example.mixed_run [3%Z] [8%Z; 7%Z] = Ok scores.
Proof.
  destruct (individual_collections Z.max Example.mixed_run
              Example.generic_model) as [st|e] eqn:Hrun;
    [|by vm_compute in Hrun].
  destruct (individual_string_sample_scores Z.max Example.mixed_run
              Example.generic_model st 0 Example.cat_sample "cat" Hrun)
    as (scores & Hk & Hsc); [reflexivity|reflexivity|].
  exists st, scores. split; [reflexivity|]. split; [reflexivity|].
  split; [reflexivity|]. split; [exact Hk|exact Hsc].
Defined.

Lemma individual_non_string_reuses_previous_witness :
  ∃ st : individual_state,
    individual_collections Z.max Example.mixed_run Example.generic_model
    = Ok st ∧
    samples Example.mixed_run !! 1 = Some Example.variants_sample ∧
    (∀ t, query Example.variants_sample ≠ PStr t) ∧
    i_results st !! "1" = i_results st !! "0".
Proof.
  assert (Hq : ∀ t, query Example.variants_sample ≠ PStr t)
    by (intros t; discriminate).
  destruct (individual_collections Z.max Example.mixed_run
              Example.generic_model) as [st|e] eqn:Hrun;
    [|by vm_compute in Hrun].
  exists st. split; [reflexivity|]. split; [reflexivity|]. split; [exact Hq|].
  apply (individual_non_string_reuses_previous Z.max Example.mixed_run
           Example.generic_model st 0 Example.variants_sample Hrun);
    [reflexivity|exact Hq].
Defined.

Lemma individual_first_non_string_witness :
  samples MoreExamples.list_first_run
  = [Example.variants_sample; Example.cat_sample] ∧
  (∀ t, query Example.variants_sample ≠ PStr t) ∧
  compute_metrics_individual Z.max Example.engine MoreExamples.list_first_run
    Example.generic_model = Raise UnboundLocalError.
Proof.
  assert (Hq : ∀ t, query Example.variants_sample ≠ PStr t)
    by (intros t; discriminate).
  split; [reflexivity|]. split; [exact Hq|].
  apply (individual_first_non_string Z.max Example.engine
           MoreExamples.list_first_run Example.generic_model
           Example.variants_sample [Example.cat_sample]);
    [reflexivity|exact Hq].
Defined.

Lemma individual_identifiers_witness :
  ∃ st : individual_state,
    individual_collections Z.max Example.mixed_run Example.generic_model
    = Ok st ∧
    dom (i_results st) = index_keys 2 ∧ dom (i_qrels st) = index_keys 2 ∧
    size (i_results st) = 2 ∧ size (i_qrels st) = 2.
Proof.
  destruct (individual_collections Z.max Example.mixed_run
              Example.generic_model) as [st|e] eqn:Hrun;
    [|by vm_compute in Hrun].
  exists st. split; [reflexivity|].
  apply (individual_identifiers Z.max Example.mixed_run
           Example.generic_model st Hrun).
Defined.

Lemma individual_succeeds_witness :
  all_single_string (samples Example.strings_run) ∧
  pointwise (individual_encode_queries_func Example.generic_model)
            Example.embed ∧
  pairwise_similarity Example.closeness (similarity_fct Example.strings_run) ∧
  ∃ st, individual_collections Z.max Example.strings_run
          Example.generic_model = Ok st ∧
        compute_metrics_individual Z.max Example.engine Example.strings_run
          Example.generic_model
        = evaluate_and_merge Example.engine Example.strings_run
            (i_results st) (i_qrels st).
Proof.
  assert (Hall : all_single_string (samples Example.strings_run)).
  { change (samples Example.strings_run)
      with [Example.cat_sample; Example.abc_sample].
    repeat (apply Forall_cons_2; [by eexists|]). apply Forall_nil_2. }
  assert (Hq : pointwise (individual_encode_queries_func Example.generic_model)
                         Example.embed) by done.
  split; [exact Hall|]. split; [exact Hq|].
  split; [apply example_similarity_pairwise|].
  apply (individual_succeeds Z.max Example.engine Example.strings_run
           Example.generic_model Example.embed Example.closeness Hall Hq
           example_similarity_pairwise).
Defined.

Lemma merged_metrics_witness :
  Example.engine ∅ ∅ (k_values Example.strings_run)
  = Ok (Example.at_cutoffs "NDCG@" 0 (k_values Example.strings_run),
        Example.at_cutoffs "MAP@" 0 (k_values Example.strings_run),
        Example.at_cutoffs "Recall@" 0 (k_values Example.strings_run),
        Example.at_cutoffs "P@" 0 (k_values Example.strings_run)) ∧
  ∃ merged : gmap string Z,
    evaluate_and_merge Example.engine Example.strings_run ∅ ∅ = Ok merged ∧
    Example.at_cutoffs "P@" 0 (k_values Example.strings_run) ⊆ merged.
Proof.
  split; [reflexivity|].
  destruct (merged_metrics Example.engine Example.strings_run ∅ ∅
              (Example.at_cutoffs "NDCG@" 0 (k_values Example.strings_run))
              (Example.at_cutoffs "MAP@" 0 (k_values Example.strings_run))
              (Example.at_cutoffs "Recall@" 0 (k_values Example.strings_run))
              (Example.at_cutoffs "P@" 0 (k_values Example.strings_run)))
    as (merged & Hm & _ & _ & Hsub & _); [reflexivity|].
  exists merged. split; [exact Hm|exact Hsub].
Defined.

Lemma driver_per_language_scores_witness :
  ∃ s : gmap string (gmap string Z),
    data_loaded DriverExample.two_languages = true ∧
    evaluate_task DriverExample.load DriverExample.run
      DriverExample.two_languages Example.generic_model "dev"
    = (DriverExample.two_languages, Done (PerLanguage s)) ∧
    dom s = list_to_set ["en"; "fr"].
Proof.
  destruct (evaluate_task DriverExample.load DriverExample.run
              DriverExample.two_languages Example.generic_model "dev")
    as [self' [sc|e]] eqn:Hrun; [|by vm_compute in Hrun].
  destruct (driver_per_language_scores DriverExample.load DriverExample.run
              DriverExample.two_languages Example.generic_model "dev"
              ["en"; "fr"]
              {[ "en" := DriverExample.english; "fr" := DriverExample.french ]}
              self' sc) as (-> & s & -> & Hdom & _);
    [reflexivity|reflexivity|exact Hrun|].
  exists s. split; [reflexivity|]. split; [reflexivity|exact Hdom].
Defined.

Lemma driver_first_failure_witness :
  data_loaded DriverExample.missing_language = true ∧
  (∃ r, language_scores DriverExample.run
          {[ "en" := DriverExample.english; "fr" := DriverExample.french ]}
          "dev" Example.generic_model "en" = Done r) ∧
  evaluate_task DriverExample.load DriverExample.run
    DriverExample.missing_language Example.generic_model "dev"
  = (DriverExample.missing_language, Failed (KeyError "de")).
Proof.
  assert (Hen : ∃ r, language_scores DriverExample.run
            {[ "en" := DriverExample.english; "fr" := DriverExample.french ]}
            "dev" Example.generic_model "en" = Done r).
  { eexists. by vm_compute. }
  split; [reflexivity|]. split; [exact Hen|].
  destruct (driver_first_failure DriverExample.load DriverExample.run
              DriverExample.missing_language Example.generic_model "dev"
              ["en"] ["fr"] "de"
              {[ "en" := DriverExample.english; "fr" := DriverExample.french ]})
    as (Hmissing & _);
    [reflexivity|reflexivity|
     apply Forall_cons_2; [exact Hen|apply Forall_nil_2]|].
  apply Hmissing. reflexivity.
Defined.

Lemma driver_language_order_witness :
  ∃ sc : @scores Z,
    ["en"; "fr"] ≡ₚ ["fr"; "en"] ∧
    evaluate_loaded DriverExample.run
      {| data_loaded := true;
         data := Multilingual ["en"; "fr"]
                   {[ "en" := DriverExample.english;
                      "fr" := DriverExample.french ]} |}
      Example.generic_model "dev" = Done sc ∧
    evaluate_loaded DriverExample.run
      {| data_loaded := true;
         data := Multilingual ["fr"; "en"]
                   {[ "en" := DriverExample.english;
                      "fr" := DriverExample.french ]} |}
      Example.generic_model "dev" = Done sc.
Proof.
  assert (Hperm : ["en"; "fr"] ≡ₚ ["fr"; "en"]) by apply Permutation_swap.
  destruct (evaluate_loaded DriverExample.run
      {| data_loaded := true;
         data := Multilingual ["en"; "fr"]
                   {[ "en" := DriverExample.english;
                      "fr" := DriverExample.french ]} |}
      Example.generic_model "dev") as [sc|e] eqn:Hrun;
    [|by vm_compute in Hrun].
  exists sc. split; [exact Hperm|]. split; [reflexivity|].
  apply (driver_language_order DriverExample.run Example.generic_model "dev"
           ["en"; "fr"] ["fr"; "en"]
           {[ "en" := DriverExample.english; "fr" := DriverExample.french ]}
           sc Hperm Hrun).
Defined.

Lemma driver_does_not_reload_witness :
  data_loaded (evaluate_task DriverExample.load DriverExample.run
                 DriverExample.not_loaded Example.generic_model "dev").1
  = true ∧
  evaluate_task DriverExample.failing_load DriverExample.run
    (evaluate_task DriverExample.load DriverExample.run
       DriverExample.not_loaded Example.generic_model "dev").1
    Example.generic_model "dev"
  = evaluate_task DriverExample.load DriverExample.run
      DriverExample.not_loaded Example.generic_model "dev".
Proof.
  split; [reflexivity|].
  apply (driver_does_not_reload DriverExample.load DriverExample.run
           DriverExample.failing_load DriverExample.not_loaded
           Example.generic_model "dev").
  reflexivity.
Defined.

Lemma driver_load_failure_witness :
  data_loaded DriverExample.not_loaded = false ∧
  DriverExample.failing_load DriverExample.not_loaded = Raise RuntimeError ∧
  evaluate_task DriverExample.failing_load DriverExample.run
    DriverExample.not_loaded Example.generic_model "dev"
  = (DriverExample.not_loaded, Failed (Raised RuntimeError)).
Proof.
  split; [reflexivity|]. split; [reflexivity|].
  apply (driver_load_failure DriverExample.failing_load DriverExample.run
           DriverExample.not_loaded Example.generic_model "dev" RuntimeError
           DriverExample.run); reflexivity.
Defined.

(** ** The batched loop: offsets and identifiers *)

Section BatchedOffsets.

Context {emb score : Type}.
Variable smax : score → score → score.

(** A completed loop has consumed one slice of query embeddings per variant
    and one slice of candidate embeddings per candidate: the offsets end at
    the totals. *)
Theorem batched_final_offsets (self : @evaluator emb score) (m : @model emb)
    (st : batched_state) :
  batched_collections smax self m = Ok st →
  query_idx st = sum_list (num_subqueries <$> samples self) ∧
  docs_idx st = length (concat (candidates <$> samples self)).
Proof.
  unfold batched_collections.
  intros (fq & _ & H)%rbind_Ok.
  apply rbind_Ok in H as (fc & _ & H).
  apply rbind_Ok in H as (texts & _ & H).
  rewrite batched_loop_eq in H.
  apply rbind_Ok in H as (rs & _ & [= <-]).
  cbn [query_idx docs_idx batched_init]. split; [done|].
  unfold doc_offset. simpl. clear.
  induction (samples self) as [|s ss IH]; [done|].
  rewrite !fmap_cons. cbn [concat]. rewrite length_app. simpl.
  by rewrite IH.
Qed.

(** With string queries the batched identifiers are ["1"] .. ["n"]: the
    offset is printed after it has been advanced, so ["0"] is never used. *)
Theorem batched_string_identifiers (self : @evaluator emb score)
    (m : @model emb) (st : batched_state) :
  all_single_string (samples self) →
  batched_collections smax self m = Ok st →
  dom (b_results st)
  = list_to_set (pretty <$> seq 1 (length (samples self))) ∧
  dom (b_qrels st)
  = list_to_set (pretty <$> seq 1 (length (samples self))) ∧
  b_results st !! "0" = None.
Proof.
  intros Hall (qe & de & rs & Hrs & -> & ->)%batched_collections_Ok.
  pose proof (batched_scores_length _ _ _ _ _ _ _ _ Hrs) as Hlen.
  rewrite fake_qids_single by done.
  assert (Hd : dom (keyed (pretty <$> seq 1 (length (samples self))) rs)
               = list_to_set (pretty <$> seq 1 (length (samples self)))).
  { apply keyed_dom. by rewrite length_fmap, length_seq. }
  split; [exact Hd|]. split.
  - apply keyed_dom. by rewrite !length_fmap, length_seq.
  - apply not_elem_of_dom. rewrite Hd, elem_of_list_to_set.
    intros (i & Hi & Hin)%list_elem_of_fmap.
    apply elem_of_seq in Hin. change "0" with (pretty 0) in Hi.
    apply (inj pretty) in Hi. lia.
Qed.

Lemma slice_nonempty {A} (l : list A) (a b : nat) :
  slice l a b ≠ [] → a < length l.
Proof.
  unfold slice. intros Hne.
  destruct (decide (a < length l)) as [|Hge]; [done|].
  rewrite drop_ge in Hne by lia. by destruct (b - a).
Qed.

Lemma batched_scores_rows (self : @evaluator emb score) (qe de : list emb)
    (qi di : nat) (ss : list sample) (rs : list (gmap string score)) :
  batched_scores smax self qe de qi di ss = Ok rs →
  ss ≠ [] → all_single_string ss → qi + length ss ≤ length qe.
Proof.
  revert qi di rs. induction ss as [|s ss IH]; intros qi di rs; [done|].
  cbn [batched_scores]. intros (scores & Hs & H)%rbind_Ok _ Hall.
  apply rbind_Ok in H as (rest & Hrest & _).
  apply Forall_cons in Hall as [[t Ht] Hall].
  unfold num_subqueries in Hs, Hrest. rewrite Ht in Hs, Hrest.
  assert (Hqi : qi < length qe).
  { apply (slice_nonempty qe qi (qi + 1)). intros Hnil.
    rewrite Hnil in Hs. discriminate. }
  destruct ss as [|s' ss'].
  - simpl. lia.
  - specialize (IH _ _ _ Hrest). simpl in *.
    assert (qi + 1 + S (length ss') ≤ length qe) by (apply IH; done).
    lia.
Qed.

(** The batched strategy completes on string queries only if the query
    encoder returned at least one embedding per sample: with fewer rows some
    sample is left with an empty block and the scorer raises. *)
Theorem batched_needs_a_row_per_query (self : @evaluator emb score)
    (m : @model emb) (fq : @encode_fn emb) (st : batched_state) :
  samples self ≠ [] → all_single_string (samples self) →
  batched_encode_queries_func m = Ok fq →
  batched_collections smax self m = Ok st →
  length (samples self)
  ≤ length (fq (query <$> samples self) (batch_size self)).
Proof.
  intros Hne Hall Hfq. unfold batched_collections. rewrite Hfq. cbn [rbind].
  intros (fc & _ & H)%rbind_Ok.
  rewrite batched_query_texts_uniform in H by (done || by left).
  cbn [rbind] in H. rewrite batched_loop_eq in H.
  apply rbind_Ok in H as (rs & Hrs & _).
  cbn [batched_init query_idx docs_idx] in Hrs.
  apply batched_scores_rows in Hrs; [|done..]. simpl in Hrs.
  replace (concat (query_texts <$> samples self))
    with (query <$> samples self) in Hrs; [done|].
  clear -Hall. induction Hall as [|s ss [t Ht] _ IH]; [done|].
  rewrite !fmap_cons. cbn [concat]. rewrite <-IH.
  unfold query_texts. by rewrite Ht.
Qed.

End BatchedOffsets.

Lemma batched_final_offsets_witness :
  ∃ st : batched_state,
    batched_collections Z.max Example.variants_run Example.generic_model
    = Ok st ∧
    query_idx st = 5 ∧ docs_idx st = 3.
Proof.
  destruct (batched_collections Z.max Example.variants_run
              Example.generic_model) as [st|e] eqn:Hrun;
    [|by vm_compute in Hrun].
  exists st. split; [reflexivity|].
  apply (batched_final_offsets Z.max Example.variants_run
           Example.generic_model st Hrun).
Defined.

Lemma batched_string_identifiers_witness :
  ∃ st : batched_state,
    all_single_string (samples Example.strings_run) ∧
    batched_collections Z.max Example.strings_run Example.generic_model
    = Ok st ∧
    dom (b_results st) = list_to_set ["1"; "2"] ∧
    b_results st !! "0" = None.
Proof.
  assert (Hall : all_single_string (samples Example.strings_run)).
  { change (samples Example.strings_run)
      with [Example.cat_sample; Example.abc_sample].
    repeat (apply Forall_cons_2; [by eexists|]). apply Forall_nil_2. }
  destruct (batched_collections Z.max Example.strings_run
              Example.generic_model) as [st|e] eqn:Hrun;
    [|by vm_compute in Hrun].
  destruct (batched_string_identifiers Z.max Example.strings_run
              Example.generic_model st Hall Hrun) as (Hdom & _ & Hzero).
  exists st. split; [exact Hall|]. split; [reflexivity|].
  split; [exact Hdom|exact Hzero].
Defined.

Lemma batched_needs_a_row_per_query_witness :
  ∃ st : batched_state,
    samples Example.strings_run ≠ [] ∧
    all_single_string (samples Example.strings_run) ∧
    batched_encode_queries_func Example.generic_model
    = Ok Example.encode_texts ∧
    batched_collections Z.max Example.strings_run Example.generic_model
    = Ok st ∧
    length (samples Example.strings_run)
    ≤ length (Example.encode_texts (query <$> samples Example.strings_run)
                (batch_size Example.strings_run)).
Proof.
  assert (Hne : samples Example.strings_run ≠ []) by (simpl; discriminate).
  assert (Hall : all_single_string (samples Example.strings_run)).
  { change (samples Example.strings_run)
      with [Example.cat_sample; Example.abc_sample].
    repeat (apply Forall_cons_2; [by eexists|]). apply Forall_nil_2. }
  destruct (batched_collections Z.max Example.strings_run
              Example.generic_model) as [st|e] eqn:Hrun;
    [|by vm_compute in Hrun].
  exists st. split; [exact Hne|]. split; [exact Hall|].
  split; [reflexivity|]. split; [reflexivity|].
  apply (batched_needs_a_row_per_query Z.max Example.strings_run
           Example.generic_model Example.encode_texts st Hne Hall);
    [reflexivity|exact Hrun].
Defined.

(** ** Relevance judgments in both strategies *)

Section Judgments.

Context {emb score : Type}.
Variable smax : score → score → score.

(** The batched strategy in closed form. *)
Lemma batched_collections_outcome (self : @evaluator emb score)
    (m : @model emb) :
  batched_collections smax self m = batched_outcome smax self m.
Proof.
  unfold batched_collections, batched_outcome.
  destruct (batched_encode_queries_func m) as [fq|e]; [|done].
  destruct (batched_encode_corpus_func m) as [fc|e]; [|done].
  destruct (batched_query_texts self) as [texts|e]; [|done].
  cbn [rbind]. rewrite batched_loop_eq.
  cbn [batched_init query_idx docs_idx b_results b_qrels].
  destruct (batched_scores smax self _ _ 0 0 (samples self)) as [rs|e] eqn:Hrs;
    [|done].
  cbn [rbind].
  pose proof (batched_scores_variants _ _ _ _ _ _ _ _ Hrs) as Hvar.
  pose proof (batched_scores_length _ _ _ _ _ _ _ _ Hrs) as Hlen.
  rewrite !insert_all_keyed; try done;
    try (by apply pretty_ids_NoDup, fake_qids_NoDup);
    by rewrite ?length_fmap, fake_qids_length.
Qed.

(** The individual strategy in closed form. *)
Lemma individual_collections_outcome (self : @evaluator emb score)
    (m : @model emb) :
  individual_collections smax self m = individual_outcome smax self m.
Proof.
  unfold individual_collections, individual_outcome, enumerate.
  rewrite (imap_ext _ (λ i x, (0 + i, x)) (samples self)) by done.
  rewrite individual_loop_eq. cbn [individual_init i_results i_qrels i_locals].
  destruct (individual_scores smax self m None (samples self)) as [r|e] eqn:Hr;
    [|done].
  cbn [rbind].
  pose proof (individual_scores_length _ _ _ _ _ _ Hr) as Hlen.
  rewrite !insert_all_keyed; try done;
    try (apply pretty_ids_NoDup, NoDup_seq);
    by rewrite ?length_fmap, length_seq.
Qed.

Lemma batched_qrels_of_Ok (self : @evaluator emb score) (m : @model emb)
    (st : batched_state) :
  batched_collections smax self m = Ok st → batched_qrels_correct self st.
Proof.
  intros (qe & de & rs & Hrs & _ & Hq)%batched_collections_Ok k s id Hs Hid.
  exists (batched_judgments s). split; [|apply batched_judgments_spec].
  rewrite Hq. apply (keyed_lookup _ _ k).
  - apply pretty_ids_NoDup, fake_qids_NoDup.
    by eapply batched_scores_variants.
  - by rewrite !length_fmap, fake_qids_length.
  - by rewrite list_lookup_fmap, Hid.
  - by rewrite list_lookup_fmap, Hs.
Qed.

Lemma individual_qrels_of_Ok (self : @evaluator emb score) (m : @model emb)
    (st : individual_state) :
  individual_collections smax self m = Ok st →
  individual_qrels_correct self st.
Proof.
  intros (r & Hr & _ & Hq)%individual_collections_Ok k s Hs.
  exists (individual_judgments s).
  split; [|rewrite individual_judgments_eq; apply batched_judgments_spec].
  rewrite Hq. apply (keyed_lookup _ _ k).
  - apply pretty_ids_NoDup, NoDup_seq.
  - by rewrite !length_fmap, length_seq.
  - rewrite list_lookup_fmap, lookup_seq_lt; [done|].
    by eapply lookup_lt_Some.
  - by rewrite list_lookup_fmap, Hs.
Qed.

(** With string queries, a pointwise query encoder and a pairwise
    similarity function the scorer succeeds on every sample of the
    individual loop. *)
Lemma individual_scores_total (self : @evaluator emb score) (m : @model emb)
    (enc_q : pyval → emb) (sim : emb → emb → score) (ss : list sample) :
  all_single_string ss →
  pointwise (individual_encode_queries_func m) enc_q →
  pairwise_similarity sim (similarity_fct self) →
  ∀ locals, ∃ r, individual_scores smax self m locals ss = Ok r.
Proof.
  intros Hall Hq Hsim.
  induction Hall as [|s ss [t Ht] _ IH]; intros locals; [by eexists|].
  cbn [individual_scores]. unfold individual_locals. rewrite Ht, Hq.
  destruct (rerank_pairwise_Ok smax self sim (enc_q <$> [PStr t])
              (individual_encode_corpus_func m (PStr <$> candidates s)
                 (batch_size self)) Hsim) as [scores ->]; [simpl; lia|].
  cbn [rbind].
  destruct (IH (Some (enc_q <$> [PStr t],
    individual_encode_corpus_func m (PStr <$> candidates s)
      (batch_size self)))) as [r ->].
  by eexists.
Qed.

(** C8: in the batched and in the individual metric computation alike, the
    Relevance Judgment Map stored for a sample gives candidate index [i] the
    label 1 if [candidates[i]] is in the sample's [positive] and 0 otherwise,
    whatever the model, the similarity function and hence the embeddings.
    Every run that completes has stored such a map for every sample; the
    runs are the closed forms [batched_outcome] and [individual_outcome], in
    which building the judgments cannot raise; on well-formed input both
    strategies do complete; and candidates a, b, c with positive b give
    0, 1, 0. *)
Theorem relevance_judgments_correct (self : @evaluator emb score)
    (m : @model emb) :
  (∀ st, batched_collections smax self m = Ok st →
         batched_qrels_correct self st) ∧
  (∀ st, individual_collections smax self m = Ok st →
         individual_qrels_correct self st) ∧
  batched_collections smax self m = batched_outcome smax self m ∧
  individual_collections smax self m = individual_outcome smax self m ∧
  (∀ (enc_q enc_c : pyval → emb) (sim : emb → emb → score),
     samples self ≠ [] → uniform_queries (samples self) →
     Forall (λ s, 1 ≤ num_subqueries s) (samples self) →
     batched_pointwise_encoder m enc_q enc_c →
     pairwise_similarity sim (similarity_fct self) →
     ∃ st, batched_collections smax self m = Ok st ∧
           batched_qrels_correct self st) ∧
  (∀ (enc_q : pyval → emb) (sim : emb → emb → score),
     all_single_string (samples self) →
     pointwise (individual_encode_queries_func m) enc_q →
     pairwise_similarity sim (similarity_fct self) →
     ∃ st, individual_collections smax self m = Ok st ∧
           individual_qrels_correct self st) ∧
  batched_judgments Example.abc_sample = {[ "0" := 0; "1" := 1; "2" := 0 ]} ∧
  individual_judgments Example.abc_sample = {[ "0" := 0; "1" := 1; "2" := 0 ]}.
Proof.
  split; [apply batched_qrels_of_Ok|].
  split; [apply individual_qrels_of_Ok|].
  split; [apply batched_collections_outcome|].
  split; [apply individual_collections_outcome|].
  split; [|split; [|split; by vm_compute]].
  - intros enc_q enc_c sim Hne Huni Hvar Henc Hsim.
    assert (Hrun : ∃ st, batched_collections smax self m = Ok st).
    { rewrite (batched_collections_uniform smax self m enc_q enc_c) by done.
      destruct (mapM_Ok (own_scores smax self enc_q enc_c) (samples self))
        as [rs ->]; [|by eexists].
      pose proof (uniform_query_texts_length _ Huni) as Hlen.
      rewrite Forall_forall in Hlen, Hvar. apply Forall_forall. intros s Hs.
      apply (rerank_pairwise_Ok smax self sim); [done|].
      rewrite length_fmap, Hlen by done. by apply Hvar. }
    destruct Hrun as [st Hst]. exists st. split; [done|].
    by eapply batched_qrels_of_Ok.
  - intros enc_q sim Hall Hq Hsim.
    assert (Hrun : ∃ st, individual_collections smax self m = Ok st).
    { rewrite individual_collections_outcome. unfold individual_outcome.
      destruct (individual_scores_total self m enc_q sim (samples self)
                  Hall Hq Hsim None) as [r ->].
      by eexists. }
    destruct Hrun as [st Hst]. exists st. split; [done|].
    by eapply individual_qrels_of_Ok.
Qed.

End Judgments.

Lemma relevance_judgments_correct_witness :
  ∃ (st_b : @batched_state Z) (st_i : @individual_state Z Z)
    (J_b J_i : gmap string nat),
    batched_collections Z.max Example.strings_run Example.generic_model
    = Ok st_b ∧
    b_qrels st_b !! "2" = Some J_b ∧
    judgment_map_of Example.abc_sample J_b ∧
    individual_collections Z.max Example.strings_run Example.generic_model
    = Ok st_i ∧
    i_qrels st_i !! "1" = Some J_i ∧
    judgment_map_of Example.abc_sample J_i.
Proof.
  assert (Hne : samples Example.strings_run ≠ []) by (simpl; discriminate).
  assert (Hall : all_single_string (samples Example.strings_run)).
  { change (samples Example.strings_run)
      with [Example.cat_sample; Example.abc_sample].
    repeat (apply Forall_cons_2; [by eexists|]). apply Forall_nil_2. }
  assert (Hvar : Forall (λ s, 1 ≤ num_subqueries s)
                        (samples Example.strings_run)).
  { change (samples Example.strings_run)
      with [Example.cat_sample; Example.abc_sample].
    repeat (apply Forall_cons_2; [vm_compute; lia|]). apply Forall_nil_2. }
  assert (Hq : pointwise (individual_encode_queries_func Example.generic_model)
                         Example.embed) by done.
  destruct (relevance_judgments_correct Z.max Example.strings_run
              Example.generic_model) as (_ & _ & _ & _ & Hb & Hi & _).
  destruct (Hb Example.embed Example.embed Example.closeness Hne
              (or_introl Hall) Hvar example_batched_encoder
              example_similarity_pairwise) as (st_b & Hrun_b & Hqb).
  destruct (Hi Example.embed Example.closeness Hall Hq
              example_similarity_pairwise) as (st_i & Hrun_i & Hqi).
  destruct (Hqb 1 Example.abc_sample 2) as (J_b & HJb & Hsb);
    [reflexivity|reflexivity|].
  destruct (Hqi 1 Example.abc_sample) as (J_i & HJi & Hsi); [reflexivity|].
  exists st_b, st_i, J_b, J_i.
  split; [exact Hrun_b|]. split; [exact HJb|]. split; [exact Hsb|].
  split; [exact Hrun_i|]. split; [exact HJi|exact Hsi].
Defined.

(** ** The two strategies select their encode functions differently *)

Section Selection.

Context {emb score : Type}.
Variable smax : score → score → score.

(** [compute_metrics_batched] asks [isinstance(model,
    EncoderWithQueryCorpusEncode)], [compute_metrics_individual] asks
    [hasattr(model, "encode_queries")]: a model that has [encode_queries]
    without being such an instance gets [encode] for its queries in the one
    and [encode_queries] in the other. *)
Lemma query_encoder_selection (m : @model emb) (f : encode_fn) :
  is_EncoderWithQueryCorpusEncode m = false →
  encode_queries m = Some f →
  batched_encode_queries_func m = Ok (encode m) ∧
  individual_encode_queries_func m = f.
Proof.
  intros Hinst Hattr.
  unfold batched_encode_queries_func, individual_encode_queries_func.
  by rewrite Hinst, Hattr.
Qed.

(** When both strategies do reach the same pointwise encode functions, on a
    non-empty sample set of single-string queries they fail alike or build
    the same Score Maps and the same Relevance Judgment Maps, sample by
    sample: the batched one under ["1"] .. ["n"], the individual one under
    ["0"] .. ["n-1"]. *)
Theorem strategies_same_collections (self : @evaluator emb score)
    (m : @model emb) (enc_q enc_c : pyval → emb) :
  samples self ≠ [] →
  all_single_string (samples self) →
  same_deterministic_encoder m enc_q enc_c →
  match batched_collections smax self m,
        individual_collections smax self m with
  | Ok st_b, Ok st_i =>
      ∃ rs : list (gmap string score),
        length rs = length (samples self) ∧
        b_results st_b = keyed (pretty <$> seq 1 (length (samples self))) rs ∧
        i_results st_i = keyed (pretty <$> seq 0 (length (samples self))) rs ∧
        b_qrels st_b = keyed (pretty <$> seq 1 (length (samples self)))
                             (batched_judgments <$> samples self) ∧
        i_qrels st_i = keyed (pretty <$> seq 0 (length (samples self)))
                             (batched_judgments <$> samples self)
  | Raise e_b, Raise e_i => e_b = e_i
  | _, _ => False
  end.
Proof.
  intros Hne Hall ((fq & Hfq & Hpq) & (fc & Hfc & Hpc) & Hiq & Hic).
  rewrite batched_collections_outcome, individual_collections_outcome.
  unfold batched_outcome, individual_outcome, batched_query_texts.
  rewrite Hfq, Hfc. cbn [rbind].
  destruct (samples self) as [|s0 ss0] eqn:Hss; [done|].
  pose proof Hall as Hall'. apply Forall_cons in Hall' as [[t0 Ht0] _].
  rewrite Ht0. cbn [rbind]. rewrite <-Hss in *. clear Hss Ht0 t0 s0 ss0 Hne.
  unfold all_docs. rewrite Hpq, Hpc.
  pose proof (scores_agree smax self m enc_q enc_c (samples self) [] [] None
                Hiq Hic Hall) as Hagree.
  simpl in Hagree. rewrite Hagree. clear Hagree.
  destruct (individual_scores smax self m None (samples self)) as [r|e] eqn:Hr;
    [|done].
  cbn [rbind b_results b_qrels i_results i_qrels].
  pose proof (individual_scores_length _ _ _ _ _ _ Hr) as Hlen.
  rewrite fake_qids_single by done.
  assert (Hj : individual_judgments <$> samples self
               = batched_judgments <$> samples self).
  { apply list_fmap_ext. intros i s _. apply individual_judgments_eq. }
  rewrite Hj. by exists r.1.
Qed.

End Selection.

(** C1: the batched and the individual metric computation do not agree on
    every set of single-string queries run with one deterministic model.
    On the two string-query samples of [strings_run], with a model that has
    [encode] and [encode_queries] but is no [EncoderWithQueryCorpusEncode],
    the batched strategy encodes the queries with [encode] and the
    individual strategy with [encode_queries]; both complete, their
    Relevance Judgment Maps are the same, but their Score Maps are not: for
    the first sample the relevant candidate 0 is scored below candidate 1 in
    the batched run and above it in the individual run.  Whatever the
    engine, each strategy returns what the engine makes of its own
    collections. *)
Theorem strategies_select_different_encoders :
  samples Example.strings_run ≠ [] ∧
  all_single_string (samples Example.strings_run) ∧
  batched_encode_queries_func MoreExamples.queries_only_model
  = Ok Example.encode_texts ∧
  individual_encode_queries_func MoreExamples.queries_only_model
  = MoreExamples.instructed_encode ∧
  ∃ (st_b : @batched_state Z) (st_i : @individual_state Z Z),
    batched_collections Z.max Example.strings_run
      MoreExamples.queries_only_model = Ok st_b ∧
    individual_collections Z.max Example.strings_run
      MoreExamples.queries_only_model = Ok st_i ∧
    b_results st_b
    = {[ "1" := {[ "0" := (-5)%Z; "1" := (-4)%Z ]};
         "2" := {[ "0" := 0%Z; "1" := 0%Z; "2" := 0%Z ]} ]} ∧
    i_results st_i
    = {[ "0" := {[ "0" := (-2)%Z; "1" := (-3)%Z ]};
         "1" := {[ "0" := (-7)%Z; "1" := (-7)%Z; "2" := (-7)%Z ]} ]} ∧
    b_qrels st_b
    = {[ "1" := {[ "0" := 1; "1" := 0 ]};
         "2" := {[ "0" := 0; "1" := 1; "2" := 0 ]} ]} ∧
    i_qrels st_i
    = {[ "0" := {[ "0" := 1; "1" := 0 ]};
         "1" := {[ "0" := 0; "1" := 1; "2" := 0 ]} ]} ∧
    ∀ evaluate,
      compute_metrics_batched Z.max evaluate Example.strings_run
        MoreExamples.queries_only_model
      = evaluate_and_merge evaluate Example.strings_run
          (b_results st_b) (b_qrels st_b) ∧
      compute_metrics_individual Z.max evaluate Example.strings_run
        MoreExamples.queries_only_model
      = evaluate_and_merge evaluate Example.strings_run
          (i_results st_i) (i_qrels st_i).
Proof.
  split; [simpl; discriminate|].
  split.
  { change (samples Example.strings_run)
      with [Example.cat_sample; Example.abc_sample].
    repeat (apply Forall_cons_2; [by eexists|]). apply Forall_nil_2. }
  split; [reflexivity|]. split; [reflexivity|].
  destruct (batched_collections Z.max Example.strings_run
              MoreExamples.queries_only_model) as [st_b|e] eqn:Hb;
    [|by vm_compute in Hb].
  destruct (individual_collections Z.max Example.strings_run
              MoreExamples.queries_only_model) as [st_i|e] eqn:Hi;
    [|by vm_compute in Hi].
  exists st_b, st_i. split; [done|]. split; [done|].
  vm_compute in Hb. vm_compute in Hi.
  injection Hb as <-. injection Hi as <-.
  split; [by vm_compute|]. split; [by vm_compute|].
  split; [by vm_compute|]. split; [by vm_compute|].
  intros evaluate. unfold compute_metrics_batched, compute_metrics_individual.
  split.
  - assert (batched_collections Z.max Example.strings_run
              MoreExamples.queries_only_model
            = Ok {| query_idx := 2; docs_idx := 5;
                    b_results :=
                      {[ "1" := {[ "0" := (-5)%Z; "1" := (-4)%Z ]};
                         "2" := {[ "0" := 0%Z; "1" := 0%Z; "2" := 0%Z ]} ]};
                    b_qrels :=
                      {[ "1" := {[ "0" := 1; "1" := 0 ]};
                         "2" := {[ "0" := 0; "1" := 1; "2" := 0 ]} ]} |})
      as -> by by vm_compute.
    cbn [rbind b_results b_qrels]. f_equal; by vm_compute.
  - destruct (individual_collections Z.max Example.strings_run
                MoreExamples.queries_only_model) as [st|e] eqn:Hrun;
      [|by vm_compute in Hrun].
    vm_compute in Hrun. injection Hrun as <-.
    cbn [rbind i_results i_qrels]. f_equal; by vm_compute.
Qed.

Lemma strategies_same_collections_witness :
  samples Example.strings_run ≠ [] ∧
  all_single_string (samples Example.strings_run) ∧
  same_deterministic_encoder Example.generic_model Example.embed Example.embed ∧
  match batched_collections Z.max Example.strings_run Example.generic_model,
        individual_collections Z.max Example.strings_run Example.generic_model
  with
  | Ok st_b, Ok st_i =>
      ∃ rs : list (gmap string Z),
        length rs = length (samples Example.strings_run) ∧
        b_results st_b
        = keyed (pretty <$> seq 1 (length (samples Example.strings_run))) rs ∧
        i_results st_i
        = keyed (pretty <$> seq 0 (length (samples Example.strings_run))) rs ∧
        b_qrels st_b
        = keyed (pretty <$> seq 1 (length (samples Example.strings_run)))
                (batched_judgments <$> samples Example.strings_run) ∧
        i_qrels st_i
        = keyed (pretty <$> seq 0 (length (samples Example.strings_run)))
                (batched_judgments <$> samples Example.strings_run)
  | Raise e_b, Raise e_i => e_b = e_i
  | _, _ => False
  end.
Proof.
  assert (Hne : samples Example.strings_run ≠ []) by (simpl; discriminate).
  assert (Hall : all_single_string (samples Example.strings_run)).
  { change (samples Example.strings_run)
      with [Example.cat_sample; Example.abc_sample].
    repeat (apply Forall_cons_2; [by eexists|]). apply Forall_nil_2. }
  split; [exact Hne|]. split; [exact Hall|].
  split; [apply example_encoder|].
  apply (strategies_same_collections Z.max Example.strings_run
           Example.generic_model Example.embed Example.embed Hne Hall
           example_encoder).
Defined.

Lemma query_encoder_selection_witness :
  is_EncoderWithQueryCorpusEncode MoreExamples.queries_only_model = false ∧
  encode_queries MoreExamples.queries_only_model
  = Some MoreExamples.instructed_encode ∧
  batched_encode_queries_func MoreExamples.queries_only_model
  = Ok (encode MoreExamples.queries_only_model) ∧
  individual_encode_queries_func MoreExamples.queries_only_model
  = MoreExamples.instructed_encode.
Proof.
  split; [reflexivity|]. split; [reflexivity|].
  apply (query_encoder_selection MoreExamples.queries_only_model
           MoreExamples.instructed_encode); reflexivity.
Defined.
